(** * Wealth Analytics Dashboard: the projection engine of [app.py]

    The four calculators of the dashboard (SIP projector, Monte Carlo
    simulator, cost of delay, goal planner) embedded as Rocq functions.

    Numbers.  Python [int]s (slider values, loop counters, the running
    invested total) are [Z].  Python [float]s are idealised as real numbers
    [R]: rounding and overflow are outside this development.  What Python
    raises is kept: a division by zero and a negative power of zero are
    [ZeroDivisionError]s, carried by the [result] type.

    The computations are embedded, the metrics of tab 1 up to the numbers
    they format, and the [avg_path] overlay of tab 2; the widgets that
    supply the inputs, the format strings and the charts are not. *)

From Stdlib Require Import Reals ZArith List Lia Lra Permutation Sorted.
Import ListNotations.

Open Scope R_scope.

(** ** Python exceptions as an error monad *)

Inductive exn : Set :=
| ZeroDivisionError   (* x / 0, 0.0 ** negative *)
| ValueError          (* min([]), negative sample size or scale *)
| IndexError          (* df.iloc[-1] on an empty frame *)
| NotANumber.         (* a float that is NaN (median of no values): no real *)

Inductive result (A : Type) : Type :=
| Ok (a : A)
| Err (e : exn).

Arguments Ok {A} a.
Arguments Err {A} e.

Definition bind {A B : Type} (c : result A) (k : A -> result B) : result B :=
  match c with
  | Ok a => k a
  | Err e => Err e
  end.

Notation "x <- c ;; k" := (bind c (fun x => k))
  (at level 61, c at next level, right associativity).

Definition raises {A : Type} (c : result A) : Prop := exists e, c = Err e.

(** [for x in xs: s = body(s, x)], stopping at the first exception. *)
Fixpoint for_each {S A : Type} (body : S -> A -> result S)
         (xs : list A) (s : S) : result S :=
  match xs with
  | [] => Ok s
  | x :: xs' => s' <- body s x ;; for_each body xs' s'
  end.

(** [range(lo, hi)]: empty when [hi <= lo]. *)
Definition py_range (lo hi : Z) : list Z :=
  map (fun k => (lo + Z.of_nat k)%Z) (seq 0 (Z.to_nat (hi - lo))).

(** ** Float operators that can raise *)

(** [x / y] *)
Definition py_truediv (x y : R) : result R :=
  if Req_dec_T y 0 then Err ZeroDivisionError else Ok (x / y).

(** [x ** n] for a float [x] and an int [n].  Python also raises
    [OverflowError] when the value of the power leaves the float range: as
    overflow is outside the real numbers, [py_pow] has no such case, and
    what is said below about raising or returning is said where the powers
    taken are [in_float_range]. *)
Definition py_pow (x : R) (n : Z) : result R :=
  if (n <? 0)%Z then
    if Req_dec_T x 0 then Err ZeroDivisionError else Ok (powerRZ x n)
  else Ok (powerRZ x n).

(** The largest finite float, and the reals within the float range. *)
Definition float_max : R := (2 - / 2 ^ 52) * 2 ^ 1023.

Definition in_float_range (x : R) : Prop := Rabs x <= float_max.

(** ** The annuity expression of tabs 3 and 4

    [c * ((((1 + rate)**months) - 1) / rate) * (1 + rate)], written out three
    times in the source (corpus_a, corpus_b, future_savings). *)
Definition future_value_annuity_due (c rate : R) (months : Z) : result R :=
  p <- py_pow (1 + rate) months ;;
  q <- py_truediv (p - 1) rate ;;
  Ok (c * q * (1 + rate)).

(** ** Tab 3: cost of delay *)

Record DelayComparison : Type := mkDelay {
  corpus_a : R;
  corpus_b : R;
  loss : R
}.

Definition computeDelayCost (delay_inv : Z) (delay_ret : R)
           (delay_duration delay_years : Z) : result DelayComparison :=
  let months_a := (delay_duration * 12)%Z in
  let rate := delay_ret / 100 / 12 in
  a <- future_value_annuity_due (IZR delay_inv) rate months_a ;;
  let months_b := ((delay_duration - delay_years) * 12)%Z in
  b <- future_value_annuity_due (IZR delay_inv) rate months_b ;;
  Ok (mkDelay a b (a - b)).

(** ** Tab 4: goal planner *)

(** The two branches of [if gap >= 0]. *)
Inductive verdict : Type :=
| CanBuy
| Shortfall (lakhs : R).

Record GoalResult : Type := mkGoal {
  future_cost : R;
  future_savings : R;
  gap : R;
  message : verdict
}.

Definition goal_message (gap : R) : verdict :=
  if Rge_dec gap 0 then CanBuy else Shortfall (Rabs gap / 100000).

Definition affordable (g : GoalResult) : bool :=
  match message g with
  | CanBuy => true
  | Shortfall _ => false
  end.

Definition computeGoalGap (current_cost years_to_buy item_inflation
                           monthly_savings_goal : Z) (goal_return : R)
  : result GoalResult :=
  growth <- py_pow (1 + IZR item_inflation / 100) years_to_buy ;;
  let future_cost := IZR current_cost * growth in
  let months := (years_to_buy * 12)%Z in
  let monthly_rate := goal_return / 100 / 12 in
  future_savings <-
    future_value_annuity_due (IZR monthly_savings_goal) monthly_rate months ;;
  let gap := future_savings - future_cost in
  Ok (mkGoal future_cost future_savings gap (goal_message gap)).

(** ** Tab 1: SIP projector *)

(** One dictionary appended to [data]: a row of the data frame. *)
Record ProjectionPoint : Type := mkPoint {
  Month : Z;
  Year : R;
  Invested : Z;
  Portfolio_Value : R;
  Real_Value : R
}.

(** The variables the loop updates. *)
Record sip_state : Type := mkSip {
  st_invested : Z;
  st_value : R;
  st_data : list ProjectionPoint
}.

Definition sip_init : sip_state := mkSip 0 0 [].

(** Body of [for m in range(1, months + 1)]. *)
Definition sip_step (monthly_inv : Z) (monthly_rate inflation_rate : R)
           (s : sip_state) (m : Z) : result sip_state :=
  let total_invested := (st_invested s + monthly_inv)%Z in
  let interest := st_value s * monthly_rate in
  let current_value := st_value s + (IZR monthly_inv + interest) in
  deflator <- py_pow (1 + inflation_rate / 100 / 12) m ;;
  real_value <- py_truediv current_value deflator ;;
  Ok (mkSip total_invested current_value
        (st_data s ++
         [mkPoint m (IZR m / 12) total_invested current_value real_value])).

Definition sip_loop (monthly_inv : Z) (monthly_rate inflation_rate : R)
           (months : Z) : result sip_state :=
  for_each (sip_step monthly_inv monthly_rate inflation_rate)
           (py_range 1 (months + 1)) sip_init.

(** [df.iloc[-1]] *)
Definition iloc_last {A : Type} (rows : list A) : result A :=
  match rev rows with
  | [] => Err IndexError
  | r :: _ => Ok r
  end.

Record SipResult : Type := mkSipResult {
  points : list ProjectionPoint;
  final_invested : Z;
  final_val : R;
  total_gains : R;
  tax_amount : R;
  post_tax_value : R
}.

Definition projectSip (monthly_inv : Z) (return_rate : R) (time_period : Z)
           (inflation_adj tax_adj : bool) : result SipResult :=
  let inflation_rate := if inflation_adj then 6.0 else 0.0 in
  let months := (time_period * 12)%Z in
  let monthly_rate := return_rate / 100 / 12 in
  s <- sip_loop monthly_inv monthly_rate inflation_rate months ;;
  let df := st_data s in
  last <- iloc_last df ;;
  let final_val := Portfolio_Value last in
  let final_invested := Invested last in
  let total_gains := final_val - IZR final_invested in
  if tax_adj then
    let taxable_gains := Rmax 0 (total_gains - 125000) in
    let tax_amount := taxable_gains * 0.125 in
    Ok (mkSipResult df final_invested final_val total_gains tax_amount
          (final_val - tax_amount))
  else
    Ok (mkSipResult df final_invested final_val total_gains 0 final_val).

(** ** Tab 2: Monte Carlo simulation *)

(** The global generator: the stream of standard normal deviates it hands
    out, and how many of them have been drawn so far. *)
Record generator : Type := mkGen {
  deviates : nat -> R;
  drawn : nat
}.

Definition advance (n : nat) (g : generator) : generator :=
  mkGen (deviates g) (drawn g + n).

(** [np.random.normal(loc, scale, size)]: the next [size] deviates, each
    scaled by [scale] and shifted by [loc]. *)
Definition np_random_normal (loc scale : R) (size : Z) (g : generator)
  : result (list R * generator) :=
  if (size <? 0)%Z then Err ValueError
  else if Rlt_dec scale 0 then Err ValueError
  else
    let n := Z.to_nat size in
    Ok (map (fun k => loc + scale * deviates g (drawn g + k)) (seq 0 n),
        advance n g).

Record path_state : Type := mkPath {
  curr : R;
  portfolio_path : list R
}.

(** Body of [for ret in monthly_returns]. *)
Definition path_step (mc_inv : Z) (s : path_state) (ret : R) : path_state :=
  let curr := (curr s + IZR mc_inv) * (1 + ret) in
  mkPath curr (portfolio_path s ++ [curr]).

Definition build_path (mc_inv : Z) (monthly_returns : list R) : path_state :=
  fold_left (path_step mc_inv) monthly_returns (mkPath 0 [0]).

Record mc_state : Type := mkMc {
  rng : generator;
  final_values : list R;
  traces : list (list R)
}.

(** Body of [for i in range(simulations)]. *)
Definition mc_iteration (mc_inv : Z) (mc_avg_return mc_volatility : R)
           (months : Z) (s : mc_state) (i : Z) : result mc_state :=
  let monthly_mean := mc_avg_return / 100 / 12 in
  let monthly_std := mc_volatility / 100 / sqrt 12 in
  sample <- np_random_normal monthly_mean monthly_std months (rng s) ;;
  let monthly_returns := fst sample in
  let p := build_path mc_inv monthly_returns in
  Ok (mkMc (snd sample) (final_values s ++ [curr p])
        (traces s ++ [portfolio_path p])).

(** [min(xs)] and [max(xs)]: the first smallest (largest) element. *)
Definition py_min (xs : list R) : result R :=
  match xs with
  | [] => Err ValueError
  | x :: t => Ok (fold_left (fun m y => if Rlt_dec y m then y else m) t x)
  end.

Definition py_max (xs : list R) : result R :=
  match xs with
  | [] => Err ValueError
  | x :: t => Ok (fold_left (fun m y => if Rlt_dec m y then y else m) t x)
  end.

Fixpoint insert_sorted (x : R) (s : list R) : list R :=
  match s with
  | [] => [x]
  | y :: s' => if Rle_dec x y then x :: y :: s' else y :: insert_sorted x s'
  end.

Definition np_sort (xs : list R) : list R :=
  fold_right insert_sorted [] xs.

(** [np.median(xs)]: the middle of the sorted values, the mean of the two
    middle ones when their number is even, NaN when there is none. *)
Definition np_median (xs : list R) : result R :=
  let s := np_sort xs in
  let n := length s in
  match n with
  | O => Err NotANumber
  | _ =>
      if Nat.even n
      then Ok ((nth (n / 2 - 1) s 0 + nth (n / 2) s 0) / 2)
      else Ok (nth (n / 2) s 0)
  end.

Record MonteCarloResult : Type := mkMonteCarlo {
  mc_paths : list (list R);
  mc_final_values : list R;
  worst_case : R;
  median_case : R;
  best_case : R
}.

Definition simulations : Z := 50.

Definition summary_stats (paths : list (list R)) (finals : list R)
  : result MonteCarloResult :=
  lo <- py_min finals ;;
  md <- np_median finals ;;
  hi <- py_max finals ;;
  Ok (mkMonteCarlo paths finals lo md hi).

Definition runMonteCarlo (mc_years mc_inv : Z)
           (mc_avg_return mc_volatility : R) (g : generator)
  : result (MonteCarloResult * generator) :=
  let months := (mc_years * 12)%Z in
  s <- for_each (mc_iteration mc_inv mc_avg_return mc_volatility months)
                (py_range 0 simulations) (mkMc g [] []) ;;
  r <- summary_stats (traces s) (final_values s) ;;
  Ok (r, rng s).

(** * Recurrences and closed forms the calculators are compared with *)

(** The annuity-due closed form, as a real number. *)
Definition annuity_due_formula (c r : R) (n : Z) : R :=
  c * ((powerRZ (1 + r) n - 1) / r) * (1 + r).

(** The ordinary-annuity closed form. *)
Definition ordinary_annuity_formula (c r : R) (n : nat) : R :=
  c * (((1 + r) ^ n - 1) / r).

(** Portfolio value after [n] months when the balance earns interest first
    and the contribution lands after: [value_0 = 0],
    [value_m = value_(m-1) * (1 + r) + c]. *)
Fixpoint sip_value (c r : R) (n : nat) : R :=
  match n with
  | O => 0
  | S k => sip_value c r k * (1 + r) + c
  end.

(** The monthly inflation rate of the projector: 6% a year when the
    adjustment is on, nothing otherwise. *)
Definition monthly_inflation (inflation_adj : bool) : R :=
  if inflation_adj then 6 / 100 / 12 else 0.

(** The row the projector is expected to emit for month [m]. *)
Definition sip_point (monthly_inv : Z) (r i : R) (m : nat) : ProjectionPoint :=
  let v := sip_value (IZR monthly_inv) r m in
  mkPoint (Z.of_nat m) (IZR (Z.of_nat m) / 12) (Z.of_nat m * monthly_inv) v
          (v / (1 + i) ^ m).

(** The loop variables the projector is expected to hold after [n] months. *)
Definition sip_state_at (monthly_inv : Z) (r i : R) (n : nat) : sip_state :=
  mkSip (Z.of_nat n * monthly_inv) (sip_value (IZR monthly_inv) r n)
        (map (sip_point monthly_inv r i) (seq 1 n)).

(** Readings of the emitted series after [m] months; month 0 is the state
    before the loop. *)
Definition invested_after (pts : list ProjectionPoint) (m : nat) : Z :=
  match m with
  | O => 0%Z
  | S k => nth k (map Invested pts) 0%Z
  end.

Definition value_after (pts : list ProjectionPoint) (m : nat) : R :=
  match m with
  | O => 0
  | S k => nth k (map Portfolio_Value pts) 0
  end.

Definition real_value_after (pts : list ProjectionPoint) (m : nat) : R :=
  match m with
  | O => 0
  | S k => nth k (map Real_Value pts) 0
  end.

(** Values of a path after each of the returns [rets], from balance [v0]:
    the contribution is added first and the sum earns the month's return. *)
Fixpoint path_values (c : R) (rets : list R) (v0 : R) : list R :=
  match rets with
  | [] => []
  | r :: rs => let v := (v0 + c) * (1 + r) in v :: path_values c rs v
  end.

(** The same with one fixed return [r] for [n] months. *)
Fixpoint mc_value (c r : R) (n : nat) : R :=
  match n with
  | O => 0
  | S k => (mc_value c r k + c) * (1 + r)
  end.

(** The returns handed to simulation [i] when each simulation draws [n]. *)
Definition sim_returns (mean std : R) (n : nat) (g : generator) (i : nat)
  : list R :=
  map (fun k => mean + std * deviates g (drawn g + i * n + k)) (seq 0 n).

(** The path of simulation [i]. *)
Definition sim_path (mc_inv : Z) (mc_avg_return mc_volatility : R) (n : nat)
           (g : generator) (i : nat) : path_state :=
  build_path mc_inv
    (sim_returns (mc_avg_return / 100 / 12) (mc_volatility / 100 / sqrt 12)
                 n g i).

(** Position in the generator's stream of the deviate used by simulation
    [i] in month [j] (counted from 0) when each simulation draws [n]. *)
Definition draw_index (g : generator) (n i j : nat) : nat :=
  (drawn g + i * n + j)%nat.

(** * The rest of the script's computations *)

(** [[f(x) for x in xs]], stopping at the first exception. *)
Fixpoint map_each {A B : Type} (f : A -> result B) (xs : list A)
  : result (list B) :=
  match xs with
  | [] => Ok []
  | x :: xs' => y <- f x ;; ys <- map_each f xs' ;; Ok (y :: ys)
  end.

(** ** Tab 2: the overlay of line 160

    [[mc_inv * m * (1 + monthly_mean)**m for m in range(months+1)]], with
    the [monthly_mean] left by the simulation loop. *)
Definition avg_path (mc_inv : Z) (monthly_mean : R) (months : Z)
  : result (list R) :=
  map_each (fun m => p <- py_pow (1 + monthly_mean) m ;;
                     Ok (IZR (mc_inv * m) * p))
           (py_range 0 (months + 1)).

(** ** Tab 1: the three metrics (lines 91 to 102)

    The numbers handed to the format strings.  [final_val] and
    [final_invested] come out of a data-frame row, so they are numpy floats:
    dividing by zero gives inf or nan, which is no real number ([None]),
    and raises nothing. *)
Definition np_truediv (x y : R) : option R :=
  if Req_dec_T y 0 then None else Some (x / y).

Inductive third_metric : Type :=
| TaxPayable (lakhs : R)
| WealthMultiplier (times : R).

Record SipMetrics : Type := mkMetrics {
  total_invested_lakhs : R;
  final_corpus_crores : R;
  growth_percent : R;
  third : third_metric
}.

Definition sip_metrics (tax_adj : bool) (res : SipResult)
  : option SipMetrics :=
  let invested := IZR (final_invested res) in
  let display_val := if tax_adj then post_tax_value res else final_val res in
  match np_truediv (display_val - invested) invested with
  | None => None
  | Some growth =>
      if tax_adj then
        Some (mkMetrics (invested / 100000) (display_val / 10000000)
                (growth * 100) (TaxPayable (tax_amount res / 100000)))
      else
        match np_truediv (final_val res) invested with
        | None => None
        | Some times =>
            Some (mkMetrics (invested / 100000) (display_val / 10000000)
                    (growth * 100) (WealthMultiplier times))
        end
  end.

(** * Properties *)

(** ** The error monad and the float operators *)

Lemma bind_ok {A B : Type} (c : result A) (k : A -> result B) (a : A) :
  c = Ok a -> bind c k = k a.
Proof. intros ->. reflexivity. Qed.

Lemma bind_err {A B : Type} (c : result A) (k : A -> result B) (e : exn) :
  c = Err e -> bind c k = Err e.
Proof. intros ->. reflexivity. Qed.

Lemma py_truediv_ok (x y : R) : y <> 0 -> py_truediv x y = Ok (x / y).
Proof.
  intros Hy. unfold py_truediv.
  destruct (Req_dec_T y 0) as [E | _]; [contradiction | reflexivity].
Qed.

Lemma py_truediv_zero (x : R) : py_truediv x 0 = Err ZeroDivisionError.
Proof.
  unfold py_truediv.
  destruct (Req_dec_T 0 0) as [_ | N]; [reflexivity | now elim N].
Qed.

Lemma py_pow_ok (x : R) (n : Z) :
  x <> 0 \/ (0 <= n)%Z -> py_pow x n = Ok (powerRZ x n).
Proof.
  intros H. unfold py_pow.
  destruct (Z.ltb_spec n 0) as [Hn | Hn]; [| reflexivity].
  destruct (Req_dec_T x 0) as [E | _]; [| reflexivity].
  destruct H as [H | H]; [contradiction | lia].
Qed.

Lemma py_pow_nat (x : R) (n : nat) : py_pow x (Z.of_nat n) = Ok (x ^ n).
Proof.
  rewrite py_pow_ok by (right; lia). now rewrite pow_powerRZ.
Qed.

(** ** Powers of a growth factor *)

Lemma powerRZ_gt_1 (x : R) (k : Z) : 1 < x -> (0 < k)%Z -> 1 < powerRZ x k.
Proof.
  intros Hx Hk. destruct k as [| p | p]; try lia.
  simpl. apply Rlt_pow_R1; [assumption | lia].
Qed.

Lemma powerRZ_strict_mono (x : R) (n1 n2 : Z) :
  1 < x -> (n1 < n2)%Z -> powerRZ x n1 < powerRZ x n2.
Proof.
  intros Hx Hn.
  replace n2 with (n1 + (n2 - n1))%Z by lia.
  rewrite powerRZ_add by lra.
  assert (H1 : 0 < powerRZ x n1) by (apply powerRZ_lt; lra).
  assert (H2 : 1 < powerRZ x (n2 - n1)) by (apply powerRZ_gt_1; [lra | lia]).
  nra.
Qed.

(** ** The annuity expression *)

Lemma annuity_due_value (c r : R) (n : Z) :
  r <> 0 -> 1 + r <> 0 \/ (0 <= n)%Z ->
  future_value_annuity_due c r n = Ok (annuity_due_formula c r n).
Proof.
  intros Hr Hn. unfold future_value_annuity_due.
  rewrite py_pow_ok by assumption. cbn [bind].
  rewrite py_truediv_ok by assumption. reflexivity.
Qed.

Lemma annuity_due_zero_periods (c r : R) :
  r <> 0 -> annuity_due_formula c r 0 = 0.
Proof.
  intros Hr. unfold annuity_due_formula. simpl. field. assumption.
Qed.

Lemma annuity_due_strict_mono (c r : R) (n1 n2 : Z) :
  0 < c -> 0 < r -> (n1 < n2)%Z ->
  annuity_due_formula c r n1 < annuity_due_formula c r n2.
Proof.
  intros Hc Hr Hn. unfold annuity_due_formula.
  assert (Hp : powerRZ (1 + r) n1 < powerRZ (1 + r) n2)
    by (apply powerRZ_strict_mono; [lra | assumption]).
  apply Rmult_lt_compat_r; [lra |].
  apply Rmult_lt_compat_l; [assumption |].
  apply Rmult_lt_compat_r; [apply Rinv_0_lt_compat; assumption | lra].
Qed.

(** For a positive rate the expression always has a value, and the value
    grows strictly with the number of periods. *)
Lemma annuity_due_increasing (c r : R) (n1 n2 : Z) :
  0 < c -> 0 < r -> (n1 < n2)%Z ->
  exists v1 v2,
    future_value_annuity_due c r n1 = Ok v1 /\
    future_value_annuity_due c r n2 = Ok v2 /\
    v1 < v2.
Proof.
  intros Hc Hr Hn.
  exists (annuity_due_formula c r n1), (annuity_due_formula c r n2).
  repeat split.
  - apply annuity_due_value; [lra | left; lra].
  - apply annuity_due_value; [lra | left; lra].
  - now apply annuity_due_strict_mono.
Qed.

(** ** Powers within the float range *)

Lemma float_max_ge : 2 ^ 1023 <= float_max.
Proof.
  unfold float_max.
  assert (H1 : 0 < 2 ^ 1023) by (apply pow_lt; lra).
  assert (H2 : 1 <= 2 ^ 52) by (apply pow_R1_Rle; lra).
  assert (H3 : / 2 ^ 52 <= 1).
  { rewrite <- Rinv_1. apply Rinv_le_contravar; lra. }
  nra.
Qed.

(** A growth factor between 1 and 2, raised to at most 1023, stays finite;
    so does any negative power of it. *)
Lemma growth_power_in_range (x : R) (n : Z) :
  1 <= x <= 2 -> (n <= 1023)%Z -> in_float_range (powerRZ x n).
Proof.
  intros Hx Hn. unfold in_float_range.
  assert (Hpos : 0 < powerRZ x n) by (apply powerRZ_lt; lra).
  rewrite Rabs_pos_eq by lra.
  apply Rle_trans with (2 ^ 1023); [| apply float_max_ge].
  destruct n as [| p | p].
  - change (powerRZ x 0) with 1. apply pow_R1_Rle; lra.
  - change (powerRZ x (Z.pos p)) with (x ^ Pos.to_nat p).
    apply Rle_trans with (2 ^ Pos.to_nat p); [apply pow_incr; lra |].
    apply Rle_pow; [lra | lia].
  - change (powerRZ x (Z.neg p)) with (/ x ^ Pos.to_nat p).
    assert (H1 : 1 <= x ^ Pos.to_nat p) by (apply pow_R1_Rle; lra).
    apply Rle_trans with 1; [| apply pow_R1_Rle; lra].
    rewrite <- Rinv_1. apply Rinv_le_contravar; lra.
Qed.

(** ** Tab 3: cost of delay *)

Lemma monthly_rate_pos (annual : R) : 0 < annual -> 0 < annual / 100 / 12.
Proof. intros H. lra. Qed.

Lemma computeDelayCost_value (delay_inv : Z) (delay_ret : R)
      (delay_duration delay_years : Z) :
  0 < delay_ret ->
  let rate := delay_ret / 100 / 12 in
  let a := annuity_due_formula (IZR delay_inv) rate (delay_duration * 12) in
  let b := annuity_due_formula (IZR delay_inv) rate
             ((delay_duration - delay_years) * 12) in
  computeDelayCost delay_inv delay_ret delay_duration delay_years
  = Ok (mkDelay a b (a - b)).
Proof.
  intros Hret rate a b. unfold computeDelayCost.
  pose proof (monthly_rate_pos _ Hret) as Hr. fold rate in Hr |- *.
  rewrite !annuity_due_value by (try lra; left; lra).
  reflexivity.
Qed.

(** With a positive contribution and a positive rate, a positive delay
    always costs something. *)
Lemma delay_cost_loss_positive (delay_inv : Z) (delay_ret : R)
      (delay_duration delay_years : Z) :
  (0 < delay_inv)%Z -> 0 < delay_ret -> (0 < delay_years)%Z ->
  exists d,
    computeDelayCost delay_inv delay_ret delay_duration delay_years = Ok d /\
    future_value_annuity_due (IZR delay_inv) (delay_ret / 100 / 12)
      (delay_duration * 12) = Ok (corpus_a d) /\
    future_value_annuity_due (IZR delay_inv) (delay_ret / 100 / 12)
      ((delay_duration - delay_years) * 12) = Ok (corpus_b d) /\
    loss d = corpus_a d - corpus_b d /\
    0 < loss d.
Proof.
  intros Hinv Hret Hdel.
  pose proof (monthly_rate_pos _ Hret) as Hr.
  eexists. split; [apply computeDelayCost_value; assumption |].
  cbn [corpus_a corpus_b loss].
  repeat split; try (apply annuity_due_value; [lra | left; lra]).
  assert (H : annuity_due_formula (IZR delay_inv) (delay_ret / 100 / 12)
                ((delay_duration - delay_years) * 12)
              < annuity_due_formula (IZR delay_inv) (delay_ret / 100 / 12)
                  (delay_duration * 12)).
  { apply annuity_due_strict_mono; [apply IZR_lt; assumption | assumption | lia]. }
  lra.
Qed.

Lemma annuity_due_at_zero_rate (c : R) (n : Z) :
  future_value_annuity_due c 0 n = Err ZeroDivisionError.
Proof.
  unfold future_value_annuity_due.
  rewrite py_pow_ok by (left; lra). cbn [bind].
  rewrite py_truediv_zero. reflexivity.
Qed.

(** C4 (zero-rate case of the annuity expression).  The expression has no
    special case for a zero rate: whatever the contribution and the number
    of periods, evaluating it at rate 0 divides by zero and raises
    [ZeroDivisionError]; it does not return [c * n]. *)
Theorem annuity_due_zero_rate_raises (c : R) (n : Z) :
  future_value_annuity_due c 0 n = Err ZeroDivisionError /\
  future_value_annuity_due c 0 n <> Ok (c * IZR n).
Proof.
  rewrite annuity_due_at_zero_rate. split; [reflexivity | discriminate].
Qed.

(** C6 (delay-cost result), at a zero return rate.  Whatever the
    contribution, the duration and the delay, the calculator raises
    [ZeroDivisionError] at [delay_ret = 0], so it yields no loss at all
    there.  For every positive rate the claim holds:
    [delay_cost_loss_positive] and [annuity_due_increasing]. *)
Theorem computeDelayCost_zero_rate_raises
        (delay_inv delay_duration delay_years : Z) :
  computeDelayCost delay_inv 0 delay_duration delay_years
  = Err ZeroDivisionError.
Proof.
  unfold computeDelayCost.
  replace (0 / 100 / 12) with 0 by lra.
  rewrite annuity_due_at_zero_rate. reflexivity.
Qed.

(** C5 as stated fails: a delay equal to the duration is accepted, and the
    late scenario is simply worth nothing. *)
Lemma delay_equal_duration_accepted :
  (10 >= 10)%Z /\
  ~ raises (computeDelayCost 25000 12 10 10) /\
  exists d, computeDelayCost 25000 12 10 10 = Ok d /\
            corpus_b d = 0 /\ loss d = corpus_a d.
Proof.
  pose proof (computeDelayCost_value 25000 12 10 10 ltac:(lra)) as H.
  cbv zeta in H.
  split; [lia |]. split.
  - intros [e He]. rewrite H in He. discriminate.
  - eexists. split; [exact H |]. cbn [corpus_a corpus_b loss].
    replace ((10 - 10) * 12)%Z with 0%Z by lia.
    rewrite annuity_due_zero_periods by lra. split; [reflexivity | lra].
Qed.

(** C5 (validation), amended.  Not every calculator rejects invalid
    inputs: the delay-cost calculator checks nothing.  For a return rate
    from 0.01% to 100%, a duration and a delay from 0 to 40 years, whether
    or not the delay is below the duration, and any contribution, positive
    or not, up to 10^15 in magnitude, it returns a result and no error.  The
    two corpora are [c * (((1 + rate) ^ n - 1) / rate) * (1 + rate)] over
    [n = duration * 12] and [n = (duration - delay) * 12] months, the
    contribution and the number of months taken as they come (nothing is
    clamped; the late corpus is 0 and the loss the whole early corpus when
    the delay equals the duration), and the loss is their difference.  Both
    powers stay within the float range. *)
Theorem computeDelayCost_no_validation (delay_inv : Z) (delay_ret : R)
        (delay_duration delay_years : Z) :
  (Z.abs delay_inv <= 1000000000000000)%Z ->
  1 / 100 <= delay_ret <= 100 ->
  (0 <= delay_duration <= 40)%Z -> (0 <= delay_years <= 40)%Z ->
  let rate := delay_ret / 100 / 12 in
  let months_a := (delay_duration * 12)%Z in
  let months_b := ((delay_duration - delay_years) * 12)%Z in
  in_float_range (powerRZ (1 + rate) months_a) /\
  in_float_range (powerRZ (1 + rate) months_b) /\
  exists d,
    computeDelayCost delay_inv delay_ret delay_duration delay_years = Ok d /\
    corpus_a d
    = IZR delay_inv * ((powerRZ (1 + rate) months_a - 1) / rate) * (1 + rate) /\
    corpus_b d
    = IZR delay_inv * ((powerRZ (1 + rate) months_b - 1) / rate) * (1 + rate) /\
    loss d = corpus_a d - corpus_b d /\
    (delay_years = delay_duration -> corpus_b d = 0 /\ loss d = corpus_a d).
Proof.
  intros _ Hret Hdur Hdel rate months_a months_b.
  assert (Hpos : 0 < delay_ret) by lra.
  assert (Hx : 1 <= 1 + rate <= 2) by (unfold rate; lra).
  split; [apply growth_power_in_range; [exact Hx | unfold months_a; lia] |].
  split; [apply growth_power_in_range; [exact Hx | unfold months_b; lia] |].
  pose proof (computeDelayCost_value delay_inv delay_ret delay_duration
                delay_years Hpos) as H.
  cbv zeta in H.
  eexists. split; [exact H |].
  cbn [corpus_a corpus_b loss]. fold rate months_a months_b.
  split; [reflexivity |]. split; [reflexivity |]. split; [reflexivity |].
  intros E. unfold months_b. rewrite E.
  replace ((delay_duration - delay_duration) * 12)%Z with 0%Z by lia.
  pose proof (annuity_due_zero_periods (IZR delay_inv) rate
                ltac:(unfold rate; lra)) as H0.
  unfold annuity_due_formula in *. rewrite H0.
  split; [reflexivity | lra].
Qed.

Lemma computeDelayCost_no_validation_witness :
  (Z.abs 25000 <= 1000000000000000)%Z /\
  1 / 100 <= 12 <= 100 /\
  (0 <= 10 <= 40)%Z /\ (0 <= 10 <= 40)%Z /\
  in_float_range (powerRZ (1 + 12 / 100 / 12) (10 * 12)) /\
  in_float_range (powerRZ (1 + 12 / 100 / 12) ((10 - 10) * 12)) /\
  exists d,
    computeDelayCost 25000 12 10 10 = Ok d /\
    corpus_a d
    = IZR 25000 * ((powerRZ (1 + 12 / 100 / 12) (10 * 12) - 1)
                   / (12 / 100 / 12)) * (1 + 12 / 100 / 12) /\
    corpus_b d
    = IZR 25000 * ((powerRZ (1 + 12 / 100 / 12) ((10 - 10) * 12) - 1)
                   / (12 / 100 / 12)) * (1 + 12 / 100 / 12) /\
    loss d = corpus_a d - corpus_b d /\
    (10%Z = 10%Z -> corpus_b d = 0 /\ loss d = corpus_a d).
Proof.
  split; [lia |]. split; [lra |]. split; [lia |]. split; [lia |].
  apply (computeDelayCost_no_validation 25000 12 10 10); [lia | lra | lia | lia].
Defined.

(** ** Tab 4: goal planner *)

Lemma goal_message_affordable (g : R) :
  (match goal_message g with CanBuy => true | Shortfall _ => false end) = true
  <-> g >= 0.
Proof.
  unfold goal_message. destruct (Rge_dec g 0) as [H | H]; split; intros H';
    try reflexivity; try assumption; try discriminate; contradiction.
Qed.

(** C8 (goal gap).  For a nonzero expected return and a purchase that is not
    in the past, the planner returns a result whose future cost is
    [current_cost * (1 + item_inflation/100) ** years], whose future savings
    are the annuity-due value
    [savings * (((1 + r) ^ n - 1) / r) * (1 + r)] at the monthly rate
    [r = goal_return / 100 / 12] over [n = years * 12] periods (the value of
    the expression shared with tab 3), whose gap is savings minus cost, and
    whose verdict is favourable exactly when the gap is [>= 0].  A cost of
    4,000,000 at 5% over 5 years gives [4000000 * 1.05 ^ 5]. *)
Theorem computeGoalGap_result
        (current_cost years_to_buy item_inflation monthly_savings_goal : Z)
        (goal_return : R) :
  goal_return <> 0 -> (0 <= years_to_buy)%Z ->
  exists g,
    computeGoalGap current_cost years_to_buy item_inflation
                   monthly_savings_goal goal_return = Ok g /\
    future_cost g
    = IZR current_cost * (1 + IZR item_inflation / 100) ^ Z.to_nat years_to_buy /\
    future_value_annuity_due (IZR monthly_savings_goal)
      (goal_return / 100 / 12) (years_to_buy * 12) = Ok (future_savings g) /\
    future_savings g
    = IZR monthly_savings_goal
      * (((1 + goal_return / 100 / 12) ^ Z.to_nat (years_to_buy * 12) - 1)
         / (goal_return / 100 / 12))
      * (1 + goal_return / 100 / 12) /\
    gap g = future_savings g - future_cost g /\
    (affordable g = true <-> gap g >= 0) /\
    (current_cost = 4000000%Z -> item_inflation = 5%Z -> years_to_buy = 5%Z ->
     future_cost g = 4000000 * 1.05 ^ 5).
Proof.
  intros Hret Hy.
  assert (Hr : goal_return / 100 / 12 <> 0).
  { intros E. apply Hret. lra. }
  unfold computeGoalGap.
  rewrite py_pow_ok by (right; assumption). cbn [bind].
  rewrite annuity_due_value by (try assumption; right; lia). cbn [bind].
  eexists. split; [reflexivity |].
  cbn [future_cost future_savings gap]. unfold affordable. cbn [message].
  assert (Hpow : powerRZ (1 + IZR item_inflation / 100) years_to_buy
                 = (1 + IZR item_inflation / 100) ^ Z.to_nat years_to_buy).
  { rewrite pow_powerRZ. now rewrite Z2Nat.id. }
  assert (Hpow' : powerRZ (1 + goal_return / 100 / 12) (years_to_buy * 12)
                  = (1 + goal_return / 100 / 12)
                    ^ Z.to_nat (years_to_buy * 12)).
  { rewrite pow_powerRZ. now rewrite Z2Nat.id by lia. }
  split; [now rewrite Hpow |].
  split; [reflexivity |].
  split; [unfold annuity_due_formula; now rewrite Hpow' |].
  split; [reflexivity |].
  split; [apply goal_message_affordable |].
  intros -> -> ->. rewrite Hpow.
  change (Z.to_nat 5) with 5%nat.
  replace (1 + 5 / 100) with 1.05 by lra. reflexivity.
Qed.

Lemma computeGoalGap_result_witness :
  10 <> 0 /\ (0 <= 5)%Z /\
  exists g,
    computeGoalGap 4000000 5 5 50000 10 = Ok g /\
    future_cost g = IZR 4000000 * (1 + IZR 5 / 100) ^ Z.to_nat 5 /\
    future_value_annuity_due (IZR 50000) (10 / 100 / 12) (5 * 12)
    = Ok (future_savings g) /\
    future_savings g
    = IZR 50000
      * (((1 + 10 / 100 / 12) ^ Z.to_nat (5 * 12) - 1) / (10 / 100 / 12))
      * (1 + 10 / 100 / 12) /\
    gap g = future_savings g - future_cost g /\
    (affordable g = true <-> gap g >= 0) /\
    (4000000%Z = 4000000%Z -> 5%Z = 5%Z -> 5%Z = 5%Z ->
     future_cost g = 4000000 * 1.05 ^ 5).
Proof.
  split; [lra |]. split; [lia |].
  apply (computeGoalGap_result 4000000 5 5 50000 10); [lra | lia].
Defined.

(** ** Tab 1: SIP projector *)

Section SipLoop.

Variables (monthly_inv : Z) (r infl : R).

(** The deflator never vanishes: the inflation rate is not -1200%. *)
Hypothesis deflator_base : 1 + infl / 100 / 12 <> 0.

Lemma sip_step_at (a : nat) :
  sip_step monthly_inv r infl
           (sip_state_at monthly_inv r (infl / 100 / 12) a) (1 + Z.of_nat a)
  = Ok (sip_state_at monthly_inv r (infl / 100 / 12) (S a)).
Proof.
  unfold sip_step.
  replace (1 + Z.of_nat a)%Z with (Z.of_nat (S a)) by lia.
  rewrite py_pow_nat. cbn [bind].
  rewrite py_truediv_ok by (apply pow_nonzero; assumption). cbn [bind].
  unfold sip_state_at. cbn [st_invested st_value st_data].
  rewrite seq_S, map_app. cbn [map Nat.add].
  unfold sip_point at 3. cbn [sip_value].
  replace (Z.of_nat a * monthly_inv + monthly_inv)%Z
    with (Z.of_nat (S a) * monthly_inv)%Z by lia.
  replace (sip_value (IZR monthly_inv) r a
           + (IZR monthly_inv + sip_value (IZR monthly_inv) r a * r))
    with (sip_value (IZR monthly_inv) r a * (1 + r) + IZR monthly_inv)
    by ring.
  reflexivity.
Qed.

Lemma sip_loop_from (n a : nat) :
  for_each (sip_step monthly_inv r infl)
           (map (fun k => (1 + Z.of_nat k)%Z) (seq a n))
           (sip_state_at monthly_inv r (infl / 100 / 12) a)
  = Ok (sip_state_at monthly_inv r (infl / 100 / 12) (a + n)).
Proof.
  revert a. induction n as [| n IH]; intros a.
  - simpl. now rewrite Nat.add_0_r.
  - cbn [seq map for_each]. rewrite sip_step_at. cbn [bind].
    rewrite IH. now rewrite Nat.add_succ_r.
Qed.

(** The loop divides by no zero and ends in the expected state. *)
Lemma sip_loop_run (months : Z) :
  sip_loop monthly_inv r infl months
  = Ok (sip_state_at monthly_inv r (infl / 100 / 12) (Z.to_nat months)).
Proof.
  unfold sip_loop, py_range.
  replace (months + 1 - 1)%Z with months by lia.
  change sip_init with (sip_state_at monthly_inv r (infl / 100 / 12) 0).
  now rewrite sip_loop_from.
Qed.

End SipLoop.

Lemma inflation_rate_monthly (inflation_adj : bool) :
  (if inflation_adj then 6.0 else 0.0) / 100 / 12
  = monthly_inflation inflation_adj.
Proof. unfold monthly_inflation. destruct inflation_adj; lra. Qed.

Lemma monthly_inflation_nonneg (inflation_adj : bool) :
  0 <= monthly_inflation inflation_adj.
Proof. unfold monthly_inflation. destruct inflation_adj; lra. Qed.

Lemma iloc_last_snoc {A : Type} (rows : list A) (r : A) :
  iloc_last (rows ++ [r]) = Ok r.
Proof. unfold iloc_last. now rewrite rev_app_distr. Qed.

Lemma sip_points_last (monthly_inv : Z) (r i : R) (n : nat) :
  iloc_last (map (sip_point monthly_inv r i) (seq 1 (S n)))
  = Ok (sip_point monthly_inv r i (S n)).
Proof. rewrite seq_S, map_app. cbn [map Nat.add]. apply iloc_last_snoc. Qed.

Lemma sip_points_nth {B : Type} (f : ProjectionPoint -> B) (d : B)
      (monthly_inv : Z) (r i : R) (n k : nat) :
  (k < n)%nat ->
  nth k (map f (map (sip_point monthly_inv r i) (seq 1 n))) d
  = f (sip_point monthly_inv r i (S k)).
Proof.
  intros Hk. rewrite map_map.
  rewrite (nth_indep _ d (f (sip_point monthly_inv r i 0)))
    by (rewrite length_map, length_seq; assumption).
  rewrite (map_nth (fun m => f (sip_point monthly_inv r i m))).
  now rewrite seq_nth.
Qed.

(** What the projector returns for a positive number of years. *)
Lemma projectSip_run (monthly_inv : Z) (return_rate : R) (time_period : Z)
      (inflation_adj tax_adj : bool) :
  (0 < time_period)%Z ->
  let n := Z.to_nat (time_period * 12) in
  let r := return_rate / 100 / 12 in
  let i := monthly_inflation inflation_adj in
  exists res,
    projectSip monthly_inv return_rate time_period inflation_adj tax_adj
    = Ok res /\
    points res = map (sip_point monthly_inv r i) (seq 1 n) /\
    final_invested res = (Z.of_nat n * monthly_inv)%Z /\
    final_val res = sip_value (IZR monthly_inv) r n.
Proof.
  intros Hy n r i. unfold projectSip.
  assert (Hi : 1 + (if inflation_adj then 6.0 else 0.0) / 100 / 12 <> 0).
  { rewrite inflation_rate_monthly.
    pose proof (monthly_inflation_nonneg inflation_adj). lra. }
  rewrite sip_loop_run by assumption. cbn [bind].
  rewrite inflation_rate_monthly. fold n r i.
  unfold sip_state_at. cbn [st_data].
  destruct n as [| n'] eqn:En; [subst n; lia |].
  rewrite sip_points_last. cbn [bind].
  destruct tax_adj; eexists; (split; [reflexivity |]);
    cbn [points final_invested final_val]; repeat split.
Qed.

Lemma invested_after_points (monthly_inv : Z) (r i : R) (n m : nat) :
  (m <= n)%nat ->
  invested_after (map (sip_point monthly_inv r i) (seq 1 n)) m
  = (Z.of_nat m * monthly_inv)%Z.
Proof.
  intros Hm. destruct m as [| k]; [reflexivity |].
  unfold invested_after. now rewrite sip_points_nth by lia.
Qed.

Lemma value_after_points (monthly_inv : Z) (r i : R) (n m : nat) :
  (m <= n)%nat ->
  value_after (map (sip_point monthly_inv r i) (seq 1 n)) m
  = sip_value (IZR monthly_inv) r m.
Proof.
  intros Hm. destruct m as [| k]; [reflexivity |].
  unfold value_after. now rewrite sip_points_nth by lia.
Qed.

Lemma sip_value_nonneg (c r : R) (n : nat) :
  0 <= c -> 0 <= r -> 0 <= sip_value c r n.
Proof.
  intros Hc Hr. induction n as [| n IH]; simpl; [lra | nra].
Qed.

Lemma sip_value_step_le (c r : R) (n : nat) :
  0 <= c -> 0 <= r -> sip_value c r n <= sip_value c r (S n).
Proof.
  intros Hc Hr. pose proof (sip_value_nonneg c r n Hc Hr). simpl. nra.
Qed.

Lemma sip_value_ge_invested (c r : R) (n : nat) :
  0 <= c -> 0 <= r -> INR n * c <= sip_value c r n.
Proof.
  intros Hc Hr. induction n as [| n IH].
  - simpl. lra.
  - rewrite S_INR. pose proof (sip_value_nonneg c r n Hc Hr). simpl. nra.
Qed.

Lemma sip_value_closed (c r : R) (n : nat) :
  r <> 0 -> sip_value c r n = ordinary_annuity_formula c r n.
Proof.
  intros Hr. unfold ordinary_annuity_formula.
  induction n as [| n IH]; simpl.
  - field. assumption.
  - rewrite IH. field. assumption.
Qed.

Lemma annuity_due_is_sip_compounded (c r : R) (n : nat) :
  r <> 0 ->
  annuity_due_formula c r (Z.of_nat n) = sip_value c r n * (1 + r).
Proof.
  intros Hr. rewrite sip_value_closed by assumption.
  unfold annuity_due_formula, ordinary_annuity_formula.
  now rewrite <- pow_powerRZ.
Qed.

(** C1 (SIP monthly step).  For a positive number of years the projector
    returns one row per month, and in every month [m] from 1 to
    [years * 12]: the row carries the month number; the invested total is
    the previous one plus the contribution; the portfolio value is the
    previous value times [1 + monthly rate] plus the contribution, starting
    from 0; and the inflation-adjusted value is the portfolio value divided
    by [(1 + monthly inflation) ^ m], the monthly inflation being 0 when the
    flag is off. *)
Theorem sip_monthly_step (monthly_inv : Z) (return_rate : R) (time_period : Z)
        (inflation_adj tax_adj : bool) :
  (0 < time_period)%Z ->
  exists res,
    projectSip monthly_inv return_rate time_period inflation_adj tax_adj
    = Ok res /\
    length (points res) = Z.to_nat (time_period * 12) /\
    forall m : nat,
      (1 <= m <= Z.to_nat (time_period * 12))%nat ->
      nth (m - 1) (map Month (points res)) 0%Z = Z.of_nat m /\
      invested_after (points res) m
      = (invested_after (points res) (m - 1) + monthly_inv)%Z /\
      value_after (points res) m
      = value_after (points res) (m - 1) * (1 + return_rate / 100 / 12)
        + IZR monthly_inv /\
      real_value_after (points res) m
      = value_after (points res) m
        / (1 + (if inflation_adj then 6 / 100 / 12 else 0)) ^ m.
Proof.
  intros Hy.
  destruct (projectSip_run monthly_inv return_rate time_period inflation_adj
              tax_adj Hy) as (res & Hres & Hpts & _ & _).
  exists res. split; [exact Hres |]. rewrite Hpts. split.
  { now rewrite length_map, length_seq. }
  intros m [Hm1 Hmn]. destruct m as [| k]; [lia |].
  replace (S k - 1)%nat with k by lia.
  rewrite !invested_after_points, !value_after_points by lia.
  unfold real_value_after. rewrite !sip_points_nth by lia.
  cbn [Month Real_Value sip_point sip_value].
  repeat split. lia.
Qed.

Lemma sip_monthly_step_witness :
  (0 < 1)%Z /\
  exists res,
    projectSip 25000 12 1 true false = Ok res /\
    length (points res) = Z.to_nat (1 * 12) /\
    forall m : nat,
      (1 <= m <= Z.to_nat (1 * 12))%nat ->
      nth (m - 1) (map Month (points res)) 0%Z = Z.of_nat m /\
      invested_after (points res) m
      = (invested_after (points res) (m - 1) + 25000)%Z /\
      value_after (points res) m
      = value_after (points res) (m - 1) * (1 + 12 / 100 / 12) + IZR 25000 /\
      real_value_after (points res) m
      = value_after (points res) m / (1 + (if true then 6 / 100 / 12 else 0)) ^ m.
Proof.
  split; [lia |]. apply (sip_monthly_step 25000 12 1 true false). lia.
Defined.

(** C7 (SIP invariants).  For a positive contribution and a positive number
    of years: the final invested amount is exactly
    [contribution * (years * 12)]; the invested total grows strictly from
    each month to the next; and when the annual rate is not negative the
    portfolio value never decreases from a month to the next and the final
    value is at least the final invested amount. *)
Theorem sip_invariants (monthly_inv : Z) (return_rate : R) (time_period : Z)
        (inflation_adj tax_adj : bool) :
  (0 < monthly_inv)%Z -> (0 < time_period)%Z ->
  exists res,
    projectSip monthly_inv return_rate time_period inflation_adj tax_adj
    = Ok res /\
    final_invested res = (monthly_inv * (time_period * 12))%Z /\
    (forall m : nat,
        (m < Z.to_nat (time_period * 12))%nat ->
        (invested_after (points res) m
         < invested_after (points res) (S m))%Z) /\
    (0 <= return_rate ->
     (forall m : nat,
         (m < Z.to_nat (time_period * 12))%nat ->
         value_after (points res) m <= value_after (points res) (S m)) /\
     IZR (final_invested res) <= final_val res).
Proof.
  intros Hc Hy.
  destruct (projectSip_run monthly_inv return_rate time_period inflation_adj
              tax_adj Hy) as (res & Hres & Hpts & Hinv & Hval).
  exists res. split; [exact Hres |]. rewrite Hpts, Hinv, Hval.
  assert (Hc' : 0 <= IZR monthly_inv) by (apply IZR_le; lia).
  split; [rewrite Z2Nat.id by lia; lia |]. split.
  - intros m Hm. rewrite !invested_after_points by lia. lia.
  - intros Hret.
    assert (Hr : 0 <= return_rate / 100 / 12) by lra.
    split.
    + intros m Hm. rewrite !value_after_points by lia.
      now apply sip_value_step_le.
    + rewrite mult_IZR, <- INR_IZR_INZ. now apply sip_value_ge_invested.
Qed.

Lemma sip_invariants_witness :
  (0 < 25000)%Z /\ (0 < 15)%Z /\
  exists res,
    projectSip 25000 12 15 false true = Ok res /\
    final_invested res = (25000 * (15 * 12))%Z /\
    (forall m : nat,
        (m < Z.to_nat (15 * 12))%nat ->
        (invested_after (points res) m
         < invested_after (points res) (S m))%Z) /\
    (0 <= 12 ->
     (forall m : nat,
         (m < Z.to_nat (15 * 12))%nat ->
         value_after (points res) m <= value_after (points res) (S m)) /\
     IZR (final_invested res) <= final_val res).
Proof.
  split; [lia |]. split; [lia |].
  apply (sip_invariants 25000 12 15 false true); lia.
Defined.

(** C10 (ordinary-annuity convention of the SIP loop).  For a positive
    contribution [c], a positive monthly rate [r] and [n >= 1] months, the
    loop ends without raising, the portfolio value of its last row is
    [c * (((1 + r) ^ n - 1) / r)], and that is the value of the annuity-due
    expression of tabs 3 and 4 divided by [1 + r]. *)
Theorem sip_is_ordinary_annuity (monthly_inv : Z) (r : R) (n : Z)
        (inflation_adj : bool) :
  (0 < monthly_inv)%Z -> 0 < r -> (1 <= n)%Z ->
  exists s last due,
    sip_loop monthly_inv r (if inflation_adj then 6.0 else 0.0) n = Ok s /\
    iloc_last (st_data s) = Ok last /\
    Portfolio_Value last = st_value s /\
    Portfolio_Value last
    = IZR monthly_inv * (((1 + r) ^ Z.to_nat n - 1) / r) /\
    future_value_annuity_due (IZR monthly_inv) r n = Ok due /\
    Portfolio_Value last = due / (1 + r).
Proof.
  intros Hc Hr Hn.
  assert (Hi : 1 + (if inflation_adj then 6.0 else 0.0) / 100 / 12 <> 0).
  { rewrite inflation_rate_monthly.
    pose proof (monthly_inflation_nonneg inflation_adj). lra. }
  destruct (Z.to_nat n) as [| k] eqn:En; [lia |].
  do 3 eexists.
  split; [apply sip_loop_run; assumption |]. rewrite En.
  unfold sip_state_at. cbn [st_data st_value].
  split; [apply sip_points_last |].
  cbn [Portfolio_Value sip_point].
  split; [reflexivity |].
  split; [apply sip_value_closed; lra |].
  split; [apply annuity_due_value; [lra | left; lra] |].
  replace n with (Z.of_nat (S k)) by lia.
  rewrite annuity_due_is_sip_compounded by lra. field. lra.
Qed.

Lemma sip_is_ordinary_annuity_witness :
  (0 < 1000)%Z /\ 0 < 1 / 100 /\ (1 <= 2)%Z /\
  exists s last due,
    sip_loop 1000 (1 / 100) (if false then 6.0 else 0.0) 2 = Ok s /\
    iloc_last (st_data s) = Ok last /\
    Portfolio_Value last = st_value s /\
    Portfolio_Value last = IZR 1000 * (((1 + 1 / 100) ^ Z.to_nat 2 - 1) / (1 / 100)) /\
    future_value_annuity_due (IZR 1000) (1 / 100) 2 = Ok due /\
    Portfolio_Value last = due / (1 + 1 / 100).
Proof.
  split; [lia |]. split; [lra |]. split; [lia |].
  apply (sip_is_ordinary_annuity 1000 (1 / 100) 2 false); [lia | lra | lia].
Defined.

(** ** Summary statistics *)

Lemma fold_min_spec (t : list R) (x : R) :
  let m := fold_left (fun m y => if Rlt_dec y m then y else m) t x in
  In m (x :: t) /\ forall y, In y (x :: t) -> m <= y.
Proof.
  revert x. induction t as [| z t IH]; intros x; cbn [fold_left].
  - split; [now left |]. intros y [<- | []]. lra.
  - destruct (Rlt_dec z x) as [Hlt | Hge].
    + destruct (IH z) as [Hin Hle]. split.
      * right. exact Hin.
      * intros y [<- | Hy]; [| now apply Hle].
        specialize (Hle z (or_introl eq_refl)). lra.
    + destruct (IH x) as [Hin Hle]. split.
      * destruct Hin as [<- | Hin]; [now left | right; now right].
      * intros y [<- | [<- | Hy]].
        -- apply Hle. now left.
        -- specialize (Hle x (or_introl eq_refl)). lra.
        -- apply Hle. now right.
Qed.

Lemma fold_max_spec (t : list R) (x : R) :
  let m := fold_left (fun m y => if Rlt_dec m y then y else m) t x in
  In m (x :: t) /\ forall y, In y (x :: t) -> y <= m.
Proof.
  revert x. induction t as [| z t IH]; intros x; cbn [fold_left].
  - split; [now left |]. intros y [<- | []]. lra.
  - destruct (Rlt_dec x z) as [Hlt | Hge].
    + destruct (IH z) as [Hin Hle]. split.
      * right. exact Hin.
      * intros y [<- | Hy]; [| now apply Hle].
        specialize (Hle z (or_introl eq_refl)). lra.
    + destruct (IH x) as [Hin Hle]. split.
      * destruct Hin as [<- | Hin]; [now left | right; now right].
      * intros y [<- | [<- | Hy]].
        -- apply Hle. now left.
        -- specialize (Hle x (or_introl eq_refl)). lra.
        -- apply Hle. now right.
Qed.

Lemma py_min_spec (xs : list R) :
  xs <> [] ->
  exists m, py_min xs = Ok m /\ In m xs /\ forall y, In y xs -> m <= y.
Proof.
  destruct xs as [| x t]; [congruence | intros _].
  eexists. split; [reflexivity |]. apply fold_min_spec.
Qed.

Lemma py_max_spec (xs : list R) :
  xs <> [] ->
  exists m, py_max xs = Ok m /\ In m xs /\ forall y, In y xs -> y <= m.
Proof.
  destruct xs as [| x t]; [congruence | intros _].
  eexists. split; [reflexivity |]. apply fold_max_spec.
Qed.

Lemma insert_sorted_perm (x : R) (s : list R) :
  Permutation (x :: s) (insert_sorted x s).
Proof.
  induction s as [| y s IH]; cbn [insert_sorted]; [reflexivity |].
  destruct (Rle_dec x y); [reflexivity |].
  rewrite perm_swap. now apply perm_skip.
Qed.

Lemma np_sort_perm (xs : list R) : Permutation xs (np_sort xs).
Proof.
  induction xs as [| x xs IH]; cbn; [constructor |].
  rewrite <- insert_sorted_perm. now apply perm_skip.
Qed.

Lemma insert_sorted_sorted (x : R) (s : list R) :
  Sorted Rle s -> Sorted Rle (insert_sorted x s).
Proof.
  induction s as [| y s IH]; intros Hs; cbn [insert_sorted].
  - repeat constructor.
  - destruct (Rle_dec x y) as [Hxy | Hxy].
    + constructor; [assumption | now constructor].
    + inversion Hs as [| ? ? Hs' Hhd]; subst.
      constructor; [now apply IH |].
      destruct s as [| z s]; cbn [insert_sorted].
      * constructor. lra.
      * destruct (Rle_dec x z); constructor; try lra.
        now inversion Hhd.
Qed.

Lemma np_sort_sorted (xs : list R) : Sorted Rle (np_sort xs).
Proof.
  induction xs as [| x xs IH]; cbn; [constructor |].
  now apply insert_sorted_sorted.
Qed.

Lemma np_sort_length (xs : list R) : length (np_sort xs) = length xs.
Proof. symmetry. apply Permutation_length, np_sort_perm. Qed.

Lemma np_sort_nth_in (xs : list R) (k : nat) :
  (k < length xs)%nat -> In (nth k (np_sort xs) 0) xs.
Proof.
  intros Hk. apply (Permutation_in _ (Permutation_sym (np_sort_perm xs))).
  apply nth_In. now rewrite np_sort_length.
Qed.

Lemma np_median_50 (xs : list R) :
  length xs = 50%nat ->
  np_median xs = Ok ((nth 24 (np_sort xs) 0 + nth 25 (np_sort xs) 0) / 2).
Proof.
  intros Hlen. unfold np_median. rewrite np_sort_length, Hlen. reflexivity.
Qed.

(** The three statistics of fifty values. *)
Lemma summary_stats_50 (paths : list (list R)) (finals : list R) :
  length finals = 50%nat ->
  exists res,
    summary_stats paths finals = Ok res /\
    mc_paths res = paths /\ mc_final_values res = finals /\
    In (worst_case res) finals /\ In (best_case res) finals /\
    (forall y, In y finals -> worst_case res <= y <= best_case res) /\
    median_case res
    = (nth 24 (np_sort finals) 0 + nth 25 (np_sort finals) 0) / 2 /\
    worst_case res <= median_case res <= best_case res.
Proof.
  intros Hlen.
  assert (Hne : finals <> []) by (intros ->; discriminate).
  destruct (py_min_spec finals Hne) as (lo & Hlo & Hlo_in & Hlo_le).
  destruct (py_max_spec finals Hne) as (hi & Hhi & Hhi_in & Hhi_ge).
  unfold summary_stats. rewrite Hlo. cbn [bind].
  rewrite (np_median_50 finals Hlen). cbn [bind]. rewrite Hhi. cbn [bind].
  eexists. split; [reflexivity |].
  cbn [mc_paths mc_final_values worst_case median_case best_case].
  assert (H24 : In (nth 24 (np_sort finals) 0) finals)
    by (apply np_sort_nth_in; lia).
  assert (H25 : In (nth 25 (np_sort finals) 0) finals)
    by (apply np_sort_nth_in; lia).
  pose proof (Hlo_le _ H24). pose proof (Hlo_le _ H25).
  pose proof (Hhi_ge _ H24). pose proof (Hhi_ge _ H25).
  repeat split; try assumption; try reflexivity; try lra.
  - now apply Hlo_le.
  - now apply Hhi_ge.
Qed.

(** ** Tab 2: one simulated path *)

Lemma last_cons_default {A : Type} (l : list A) (a d : A) :
  last (a :: l) d = last l a.
Proof.
  revert a d. induction l as [| b l IH]; intros a d; [reflexivity |].
  change (last (a :: b :: l) d) with (last (b :: l) d).
  now rewrite !IH.
Qed.

Lemma fold_path_step (mc_inv : Z) (rets : list R) (s : path_state) :
  fold_left (path_step mc_inv) rets s
  = mkPath (last (path_values (IZR mc_inv) rets (curr s)) (curr s))
           (portfolio_path s ++ path_values (IZR mc_inv) rets (curr s)).
Proof.
  revert s. induction rets as [| r rs IH]; intros s.
  - cbn. rewrite app_nil_r. now destruct s.
  - cbn [fold_left]. rewrite IH. unfold path_step at 1 2 3 4. cbn [curr portfolio_path].
    cbn [path_values]. rewrite <- app_assoc. cbn [app]. f_equal.
    now rewrite last_cons_default.
Qed.

Lemma build_path_values (mc_inv : Z) (rets : list R) :
  build_path mc_inv rets
  = mkPath (last (path_values (IZR mc_inv) rets 0) 0)
           (0 :: path_values (IZR mc_inv) rets 0).
Proof. unfold build_path. now rewrite fold_path_step. Qed.

Lemma path_values_length (c : R) (rets : list R) (v0 : R) :
  length (path_values c rets v0) = length rets.
Proof.
  revert v0. induction rets as [| r rs IH]; intros v0; cbn; [reflexivity |].
  now rewrite IH.
Qed.

Lemma path_values_step (c : R) (rets : list R) (v0 : R) (j : nat) :
  (j < length rets)%nat ->
  nth (S j) (v0 :: path_values c rets v0) 0
  = (nth j (v0 :: path_values c rets v0) 0 + c) * (1 + nth j rets 0).
Proof.
  revert v0 j. induction rets as [| r rs IH]; intros v0 j Hj; [cbn in Hj; lia |].
  destruct j as [| j]; [reflexivity |].
  cbn [path_values]. cbn [length] in Hj.
  change (nth (S (S j)) (v0 :: ?l) 0) with (nth (S j) l 0).
  change (nth (S j) (v0 :: ?l) 0) with (nth j l 0).
  change (nth (S j) (r :: rs) 0) with (nth j rs 0).
  apply IH. lia.
Qed.

Lemma path_values_last (c : R) (rets : list R) (v0 : R) :
  last (v0 :: path_values c rets v0) 0 = last (path_values c rets v0) v0.
Proof.
  apply last_cons_default.
Qed.

Lemma path_values_constant (c r : R) (n : nat) (k : nat) :
  last (path_values c (repeat r n) (mc_value c r k)) (mc_value c r k)
  = mc_value c r (k + n).
Proof.
  revert k. induction n as [| n IH]; intros k.
  - cbn. now rewrite Nat.add_0_r.
  - cbn [repeat path_values].
    change ((mc_value c r k + c) * (1 + r)) with (mc_value c r (S k)).
    rewrite <- Nat.add_succ_comm, <- IH.
    apply last_cons_default.
Qed.

(** With the same return every month the balance follows [mc_value]. *)
Lemma build_path_constant (mc_inv : Z) (r : R) (n : nat) :
  curr (build_path mc_inv (repeat r n)) = mc_value (IZR mc_inv) r n.
Proof.
  rewrite build_path_values. cbn [curr].
  apply (path_values_constant (IZR mc_inv) r n 0).
Qed.

(** The Monte Carlo step compounds the contribution in the month it lands:
    its deterministic value is the projector's, one period further. *)
Lemma mc_value_sip_value (c r : R) (n : nat) :
  mc_value c r n = (1 + r) * sip_value c r n.
Proof.
  induction n as [| n IH]; cbn; [ring |]. rewrite IH. ring.
Qed.

(** ** Tab 2: the fifty simulations *)

Lemma np_random_normal_run (loc scale : R) (size : Z) (g : generator) :
  (0 <= size)%Z -> 0 <= scale ->
  np_random_normal loc scale size g
  = Ok (sim_returns loc scale (Z.to_nat size) g 0, advance (Z.to_nat size) g).
Proof.
  intros Hsize Hscale. unfold np_random_normal.
  destruct (Z.ltb_spec size 0) as [H | _]; [lia |].
  destruct (Rlt_dec scale 0) as [H | _]; [lra |].
  unfold sim_returns. do 2 f_equal. apply map_ext. intros k.
  now rewrite Nat.add_0_r.
Qed.

Lemma monthly_std_nonneg (mc_volatility : R) :
  0 <= mc_volatility -> 0 <= mc_volatility / 100 / sqrt 12.
Proof.
  intros H. assert (Hs : 0 < sqrt 12) by (apply sqrt_lt_R0; lra).
  apply Rmult_le_pos; [lra |]. left. now apply Rinv_0_lt_compat.
Qed.

Lemma sim_returns_advance (mean std : R) (n : nat) (g : generator) (i : nat) :
  sim_returns mean std n (advance n g) i = sim_returns mean std n g (S i).
Proof.
  unfold sim_returns, advance. cbn [deviates drawn].
  apply map_ext. intros k. do 3 f_equal. lia.
Qed.

Lemma advance_advance (a b : nat) (g : generator) :
  advance a (advance b g) = advance (b + a) g.
Proof. unfold advance. cbn [deviates drawn]. f_equal. lia. Qed.

Section Simulations.

Variables (mc_inv : Z) (mc_avg_return mc_volatility : R) (months : Z).

(** What [np.random.normal] requires of its size and scale. *)
Hypothesis months_nonneg : (0 <= months)%Z.
Hypothesis volatility_nonneg : 0 <= mc_volatility.

(** One simulation: draws [months] deviates, appends its path and its
    terminal value. *)
Lemma mc_iteration_run (s : mc_state) (i : Z) :
  let p := sim_path mc_inv mc_avg_return mc_volatility (Z.to_nat months)
                    (rng s) 0 in
  mc_iteration mc_inv mc_avg_return mc_volatility months s i
  = Ok (mkMc (advance (Z.to_nat months) (rng s))
          (final_values s ++ [curr p]) (traces s ++ [portfolio_path p])).
Proof.
  intros p. unfold mc_iteration.
  rewrite np_random_normal_run
    by (try assumption; now apply monthly_std_nonneg).
  reflexivity.
Qed.

(** The loop over the simulations: simulation [i] works on the deviates
    that follow those of the simulations before it. *)
Lemma mc_loop_run (xs : list Z) (s : mc_state) :
  let p := sim_path mc_inv mc_avg_return mc_volatility (Z.to_nat months)
                    (rng s) in
  for_each (mc_iteration mc_inv mc_avg_return mc_volatility months) xs s
  = Ok (mkMc (advance (length xs * Z.to_nat months) (rng s))
          (final_values s ++ map (fun i => curr (p i)) (seq 0 (length xs)))
          (traces s
           ++ map (fun i => portfolio_path (p i)) (seq 0 (length xs)))).
Proof.
  revert s. induction xs as [| x xs IH]; intros s p.
  - cbn. rewrite !app_nil_r. unfold advance. rewrite Nat.add_0_r.
    now destruct s as [[? ?] ? ?].
  - cbn [for_each]. rewrite mc_iteration_run. cbn [bind].
    rewrite IH. cbn [rng final_values traces].
    rewrite advance_advance.
    cbn [length]. rewrite <- cons_seq, <- seq_shift.
    cbn [map]. rewrite !map_map, <- !app_assoc. cbn [app].
    assert (Hp : forall i,
               sim_path mc_inv mc_avg_return mc_volatility (Z.to_nat months)
                        (advance (Z.to_nat months) (rng s)) i
               = p (S i)).
    { intros i. unfold p, sim_path. now rewrite sim_returns_advance. }
    rewrite (map_ext _ (fun i => curr (p (S i))))
      by (intros i; now rewrite Hp).
    rewrite (map_ext (fun i => portfolio_path (sim_path _ _ _ _ _ i))
                     (fun i => portfolio_path (p (S i))))
      by (intros i; now rewrite Hp).
    reflexivity.
Qed.

End Simulations.

Lemma nth_map_seq {B : Type} (f : nat -> B) (d : B) (n k : nat) :
  (k < n)%nat -> nth k (map f (seq 0 n)) d = f k.
Proof.
  intros Hk.
  rewrite (nth_indep _ d (f 0%nat)) by (now rewrite length_map, length_seq).
  rewrite map_nth. now rewrite seq_nth.
Qed.

(** What a run returns: fifty paths, their fifty terminal values and the
    statistics of those, with the generator moved past every deviate used. *)
Lemma runMonteCarlo_run (mc_years mc_inv : Z) (mc_avg_return mc_volatility : R)
      (g : generator) :
  (0 <= mc_years)%Z -> 0 <= mc_volatility ->
  let n := Z.to_nat (mc_years * 12) in
  let p := sim_path mc_inv mc_avg_return mc_volatility n g in
  exists res,
    runMonteCarlo mc_years mc_inv mc_avg_return mc_volatility g
    = Ok (res, advance (50 * n) g) /\
    summary_stats (map (fun i => portfolio_path (p i)) (seq 0 50))
                  (map (fun i => curr (p i)) (seq 0 50)) = Ok res /\
    mc_paths res = map (fun i => portfolio_path (p i)) (seq 0 50) /\
    mc_final_values res = map (fun i => curr (p i)) (seq 0 50).
Proof.
  intros Hy Hv n p. unfold runMonteCarlo.
  rewrite mc_loop_run by (try assumption; lia).
  cbn [bind rng final_values traces app].
  change (length (py_range 0 simulations)) with 50%nat. fold n p.
  destruct (summary_stats_50
              (map (fun i => portfolio_path (p i)) (seq 0 50))
              (map (fun i => curr (p i)) (seq 0 50)))
    as (res & Hres & Hp & Hf & _).
  { now rewrite length_map, length_seq. }
  exists res. unfold p, sim_path in *. rewrite Hres. cbn [bind].
  repeat split; assumption.
Qed.

Lemma draw_index_injective (g : generator) (n i i' j j' : nat) :
  (j < n)%nat -> (j' < n)%nat ->
  draw_index g n i j = draw_index g n i' j' -> i = i' /\ j = j'.
Proof.
  unfold draw_index. intros Hj Hj' E.
  apply (Nat.div_mod_unique n); try assumption. lia.
Qed.

(** C2 (Monte Carlo path construction).  For a number of years and a
    volatility that are not negative, a run returns fifty paths and fifty
    terminal values.  The monthly mean is [avg / 100 / 12] and the monthly
    standard deviation [volatility / 100 / sqrt 12].  Every path has
    [months + 1] values and starts at 0; step [j] of path [i] is
    [(value + contribution) * (1 + r)] where [r] is the mean plus the
    standard deviation times a deviate of its own (no deviate is used by two
    steps, of the same path or of two paths); the terminal value is the last
    value of the path. *)
Theorem monte_carlo_paths (mc_years mc_inv : Z)
        (mc_avg_return mc_volatility : R) (g : generator) :
  (0 <= mc_years)%Z -> 0 <= mc_volatility ->
  let months := Z.to_nat (mc_years * 12) in
  let monthly_mean := mc_avg_return / 100 / 12 in
  let monthly_std := mc_volatility / 100 / sqrt 12 in
  exists res g',
    runMonteCarlo mc_years mc_inv mc_avg_return mc_volatility g
    = Ok (res, g') /\
    length (mc_paths res) = 50%nat /\
    length (mc_final_values res) = 50%nat /\
    (forall i : nat,
        (i < 50)%nat ->
        let path := nth i (mc_paths res) [] in
        length path = S months /\
        nth 0 path 0 = 0 /\
        (forall j : nat,
            (j < months)%nat ->
            nth (S j) path 0
            = (nth j path 0 + IZR mc_inv)
              * (1 + (monthly_mean
                      + monthly_std * deviates g (draw_index g months i j)))) /\
        nth i (mc_final_values res) 0 = last path 0) /\
    (forall i i' j j' : nat,
        (j < months)%nat -> (j' < months)%nat ->
        draw_index g months i j = draw_index g months i' j' ->
        i = i' /\ j = j') /\
    drawn g' = (drawn g + 50 * months)%nat.
Proof.
  intros Hy Hv months monthly_mean monthly_std.
  destruct (runMonteCarlo_run mc_years mc_inv mc_avg_return mc_volatility g
              Hy Hv) as (res & Hrun & _ & Hp & Hf).
  fold months in Hrun, Hp, Hf.
  exists res, (advance (50 * months) g).
  split; [exact Hrun |]. rewrite Hp, Hf.
  split; [now rewrite length_map, length_seq |].
  split; [now rewrite length_map, length_seq |].
  split; [| split; [apply draw_index_injective | reflexivity]].
  intros i Hi path. unfold path. rewrite !nth_map_seq by assumption.
  unfold sim_path. rewrite build_path_values. cbn [portfolio_path curr].
  fold monthly_mean monthly_std.
  assert (Hlen : length (sim_returns monthly_mean monthly_std months g i)
                 = months).
  { unfold sim_returns. now rewrite length_map, length_seq. }
  split; [cbn [length]; now rewrite path_values_length, Hlen |].
  split; [reflexivity |]. split.
  - intros j Hj. rewrite path_values_step by (rewrite Hlen; assumption).
    do 2 f_equal. unfold sim_returns. now rewrite nth_map_seq.
  - now rewrite path_values_last.
Qed.

Lemma monte_carlo_paths_witness :
  (0 <= 15)%Z /\ 0 <= 15 /\
  exists res g',
    runMonteCarlo 15 25000 12 15 (mkGen INR 0) = Ok (res, g') /\
    length (mc_paths res) = 50%nat /\
    length (mc_final_values res) = 50%nat /\
    (forall i : nat,
        (i < 50)%nat ->
        let path := nth i (mc_paths res) [] in
        length path = S (Z.to_nat (15 * 12)) /\
        nth 0 path 0 = 0 /\
        (forall j : nat,
            (j < Z.to_nat (15 * 12))%nat ->
            nth (S j) path 0
            = (nth j path 0 + IZR 25000)
              * (1 + (12 / 100 / 12
                      + 15 / 100 / sqrt 12
                        * deviates (mkGen INR 0)
                            (draw_index (mkGen INR 0) (Z.to_nat (15 * 12)) i j)))) /\
        nth i (mc_final_values res) 0 = last path 0) /\
    (forall i i' j j' : nat,
        (j < Z.to_nat (15 * 12))%nat -> (j' < Z.to_nat (15 * 12))%nat ->
        draw_index (mkGen INR 0) (Z.to_nat (15 * 12)) i j
        = draw_index (mkGen INR 0) (Z.to_nat (15 * 12)) i' j' ->
        i = i' /\ j = j') /\
    drawn g' = (drawn (mkGen INR 0) + 50 * Z.to_nat (15 * 12))%nat.
Proof.
  split; [lia |]. split; [lra |].
  apply (monte_carlo_paths 15 25000 12 15 (mkGen INR 0)); [lia | lra].
Defined.



(** ** Zero volatility *)

Lemma sim_returns_zero_std (mean : R) (n : nat) (g : generator) (i : nat) :
  sim_returns mean (0 / 100 / sqrt 12) n g i = repeat mean n.
Proof.
  unfold sim_returns.
  rewrite (map_ext _ (fun _ => mean)).
  - now rewrite map_const, length_seq.
  - intros k. unfold Rdiv. rewrite !Rmult_0_l. ring.
Qed.

Lemma sim_path_zero_vol (mc_inv : Z) (mc_avg_return : R) (n : nat)
      (g : generator) (i : nat) :
  sim_path mc_inv mc_avg_return 0 n g i
  = build_path mc_inv (repeat (mc_avg_return / 100 / 12) n).
Proof. unfold sim_path. now rewrite sim_returns_zero_std. Qed.

(** With no volatility the fifty simulations are one and the same. *)
Lemma runMonteCarlo_zero_vol (mc_years mc_inv : Z) (mc_avg_return : R)
      (g : generator) :
  (0 <= mc_years)%Z ->
  let n := Z.to_nat (mc_years * 12) in
  let r := mc_avg_return / 100 / 12 in
  exists res g',
    runMonteCarlo mc_years mc_inv mc_avg_return 0 g = Ok (res, g') /\
    mc_paths res = repeat (portfolio_path (build_path mc_inv (repeat r n))) 50 /\
    mc_final_values res = repeat (mc_value (IZR mc_inv) r n) 50.
Proof.
  intros Hy n r.
  destruct (runMonteCarlo_run mc_years mc_inv mc_avg_return 0 g Hy
              (Rle_refl 0)) as (res & Hrun & _ & Hp & Hf).
  fold n in Hrun, Hp, Hf.
  exists res. eexists. split; [exact Hrun |]. rewrite Hp, Hf. split.
  - rewrite (map_ext _ (fun _ => portfolio_path (build_path mc_inv (repeat r n))))
      by (intros i; now rewrite sim_path_zero_vol).
    now rewrite map_const.
  - rewrite (map_ext _ (fun _ => mc_value (IZR mc_inv) r n))
      by (intros i; now rewrite sim_path_zero_vol, build_path_constant).
    now rewrite map_const.
Qed.

Lemma nth_repeat_lt {A : Type} (a d : A) (n k : nat) :
  (k < n)%nat -> nth k (repeat a n) d = a.
Proof.
  revert k. induction n as [| n IH]; intros k Hk; [lia |].
  destruct k as [| k]; [reflexivity |]. cbn. apply IH. lia.
Qed.

(** C9 as stated fails: at 12% a year, 1000 a month for one year and no
    volatility, the terminal values are not the final value of the SIP
    projector for the same inputs. *)
Lemma zero_volatility_differs_from_sip :
  exists res g' sip,
    runMonteCarlo 1 1000 12 0 (mkGen (fun _ => 0) 0) = Ok (res, g') /\
    projectSip 1000 12 1 false false = Ok sip /\
    nth 0 (mc_final_values res) 0 <> final_val sip.
Proof.
  destruct (runMonteCarlo_zero_vol 1 1000 12 (mkGen (fun _ => 0) 0) ltac:(lia))
    as (res & g' & Hrun & _ & Hf).
  destruct (projectSip_run 1000 12 1 false false ltac:(lia))
    as (sip & Hsip & _ & _ & Hval).
  exists res, g', sip. split; [exact Hrun |]. split; [exact Hsip |].
  rewrite Hf, Hval. rewrite nth_repeat_lt by lia.
  rewrite mc_value_sip_value.
  pose proof (sip_value_ge_invested 1000 (12 / 100 / 12)
                (Z.to_nat (1 * 12)) ltac:(lra) ltac:(lra)) as Hge.
  change (Z.to_nat (1 * 12)) with 12%nat in *.
  rewrite INR_IZR_INZ in Hge. cbn [Z.of_nat Pos.of_succ_nat Pos.succ] in Hge.
  lra.
Qed.

(** C9 (zero volatility), amended.  With a volatility of 0 the fifty paths
    are equal and the fifty terminal values are the deterministic value of
    the simulator's own recurrence [(value + contribution) * (1 + mean)] at
    the mean monthly rate.  That value is the annuity-due expression of
    tabs 3 and 4, and [1 + mean] times the final value of the SIP projector
    for the same rate, contribution and duration: not that final value
    itself. *)
Theorem zero_volatility_degenerates (mc_years mc_inv : Z) (mc_avg_return : R)
        (g : generator) :
  (0 <= mc_years)%Z ->
  let n := Z.to_nat (mc_years * 12) in
  let r := mc_avg_return / 100 / 12 in
  exists res g',
    runMonteCarlo mc_years mc_inv mc_avg_return 0 g = Ok (res, g') /\
    (forall i j : nat,
        (i < 50)%nat -> (j < 50)%nat ->
        nth i (mc_paths res) [] = nth j (mc_paths res) []) /\
    (forall i : nat,
        (i < 50)%nat ->
        nth i (mc_final_values res) 0 = mc_value (IZR mc_inv) r n) /\
    (forall inflation_adj tax_adj : bool,
        (0 < mc_years)%Z ->
        exists sip,
          projectSip mc_inv mc_avg_return mc_years inflation_adj tax_adj
          = Ok sip /\
          mc_value (IZR mc_inv) r n = (1 + r) * final_val sip) /\
    (mc_avg_return <> 0 ->
     future_value_annuity_due (IZR mc_inv) r (mc_years * 12)
     = Ok (mc_value (IZR mc_inv) r n)).
Proof.
  intros Hy n r.
  destruct (runMonteCarlo_zero_vol mc_years mc_inv mc_avg_return g Hy)
    as (res & g' & Hrun & Hp & Hf).
  fold n r in Hp, Hf.
  exists res, g'. split; [exact Hrun |]. rewrite Hp, Hf.
  split; [| split; [| split]].
  - intros i j Hi Hj. now rewrite !nth_repeat_lt.
  - intros i Hi. now rewrite nth_repeat_lt.
  - intros inflation_adj tax_adj Hpos.
    destruct (projectSip_run mc_inv mc_avg_return mc_years inflation_adj
                tax_adj Hpos) as (sip & Hsip & _ & _ & Hval).
    exists sip. split; [exact Hsip |]. rewrite Hval.
    apply mc_value_sip_value.
  - intros Havg.
    assert (Hr : r <> 0) by (unfold r; intros E; apply Havg; lra).
    rewrite annuity_due_value by (try assumption; right; lia).
    f_equal. replace (mc_years * 12)%Z with (Z.of_nat n) by (unfold n; lia).
    rewrite annuity_due_is_sip_compounded by assumption.
    rewrite mc_value_sip_value. ring.
Qed.

Lemma zero_volatility_degenerates_witness :
  (0 <= 15)%Z /\
  exists res g',
    runMonteCarlo 15 25000 12 0 (mkGen INR 0) = Ok (res, g') /\
    (forall i j : nat,
        (i < 50)%nat -> (j < 50)%nat ->
        nth i (mc_paths res) [] = nth j (mc_paths res) []) /\
    (forall i : nat,
        (i < 50)%nat ->
        nth i (mc_final_values res) 0
        = mc_value (IZR 25000) (12 / 100 / 12) (Z.to_nat (15 * 12))) /\
    (forall inflation_adj tax_adj : bool,
        (0 < 15)%Z ->
        exists sip,
          projectSip 25000 12 15 inflation_adj tax_adj = Ok sip /\
          mc_value (IZR 25000) (12 / 100 / 12) (Z.to_nat (15 * 12))
          = (1 + 12 / 100 / 12) * final_val sip) /\
    (12 <> 0 ->
     future_value_annuity_due (IZR 25000) (12 / 100 / 12) (15 * 12)
     = Ok (mc_value (IZR 25000) (12 / 100 / 12) (Z.to_nat (15 * 12)))).
Proof.
  split; [lia |].
  apply (zero_volatility_degenerates 15 25000 12 (mkGen INR 0)). lia.
Defined.

(** ** Zero rate in the SIP loop

    The loop of tab 1 needs no division by the rate: at a zero rate it
    simply adds up the contributions. *)
Lemma sip_value_zero_rate (c : R) (n : nat) : sip_value c 0 n = INR n * c.
Proof.
  induction n as [| n IH].
  - simpl. ring.
  - rewrite S_INR. simpl. rewrite IH. ring.
Qed.

(** ** Worked examples *)

(** Settles, innermost first, the comparisons of concrete reals that an
    evaluation leaves behind. *)
Ltac settle_dec d :=
  let H := fresh in
  first [ destruct d as [H | H]; [| exfalso; apply H; lra]
        | destruct d as [H | H]; [exfalso; lra |] ];
  clear H.

Ltac decide_reals :=
  repeat (match goal with
          | |- context [Rle_dec ?a ?b] => settle_dec (Rle_dec a b)
          | |- context [Rlt_dec ?a ?b] => settle_dec (Rlt_dec a b)
          end;
          cbn [insert_sorted fold_left fold_right]).

Example sip_two_months :
  exists s,
    sip_loop 1000 (1 / 100) 0 2 = Ok s /\
    st_invested s = 2000%Z /\
    st_value s = 2010 /\
    map Portfolio_Value (st_data s) = [1000; 2010].
Proof.
  eexists. split; [apply sip_loop_run; lra |].
  change (Z.to_nat 2) with 2%nat.
  unfold sip_state_at. cbn [st_invested st_value st_data seq map sip_point
                            Portfolio_Value sip_value].
  repeat split; repeat (f_equal; try lra).
Qed.

Example path_two_months :
  build_path 1000 [1 / 10; 0] = mkPath 2100 [0; 1100; 2100].
Proof.
  rewrite build_path_values. cbn [path_values last].
  f_equal; [lra | repeat (f_equal; try lra)].
Qed.

Example min_of_three : py_min [3; 1; 2] = Ok 1.
Proof. unfold py_min. cbn [fold_left]. decide_reals. reflexivity. Qed.

Example max_of_three : py_max [3; 1; 2] = Ok 3.
Proof. unfold py_max. cbn [fold_left]. decide_reals. reflexivity. Qed.

Example sort_of_four : np_sort [3; 1; 4; 2] = [1; 2; 3; 4].
Proof.
  unfold np_sort. cbn [insert_sorted fold_right]. decide_reals. reflexivity.
Qed.

Example median_of_four : np_median [3; 1; 4; 2] = Ok (5 / 2).
Proof.
  unfold np_median. rewrite sort_of_four. cbn. f_equal. lra.
Qed.

Example annuity_due_two_periods :
  future_value_annuity_due 1000 (1 / 10) 2 = Ok 2310.
Proof.
  rewrite annuity_due_value by (try lra; left; lra).
  f_equal. unfold annuity_due_formula. simpl. field.
Qed.

Example tesla_future_cost :
  exists g, computeGoalGap 4000000 5 5 50000 10 = Ok g /\
            future_cost g = 5105126.25.
Proof.
  unfold computeGoalGap.
  rewrite py_pow_ok by (right; lia). cbn [bind].
  rewrite annuity_due_value by (try lra; right; lia). cbn [bind].
  eexists. split; [reflexivity |]. cbn [future_cost]. simpl. lra.
Qed.

(** * Further properties of the calculators *)

(** ** Tab 3: what the delay costs *)









(** ** Tab 4: the goal planner *)

Lemma computeGoalGap_value
      (current_cost years_to_buy item_inflation monthly_savings_goal : Z)
      (goal_return : R) :
  goal_return <> 0 -> (0 <= years_to_buy)%Z ->
  let cost := IZR current_cost
              * powerRZ (1 + IZR item_inflation / 100) years_to_buy in
  let savings := annuity_due_formula (IZR monthly_savings_goal)
                   (goal_return / 100 / 12) (years_to_buy * 12) in
  computeGoalGap current_cost years_to_buy item_inflation
                 monthly_savings_goal goal_return
  = Ok (mkGoal cost savings (savings - cost) (goal_message (savings - cost))).
Proof.
  intros Hret Hy cost savings. unfold computeGoalGap.
  rewrite py_pow_ok by (right; assumption). cbn [bind].
  rewrite annuity_due_value
    by (try (right; lia); intros E; apply Hret; lra).
  reflexivity.
Qed.

Lemma annuity_due_factor_nonneg (r : R) (n : Z) :
  0 < r -> (0 <= n)%Z -> 0 <= (powerRZ (1 + r) n - 1) / r * (1 + r).
Proof.
  intros Hr Hn.
  assert (H1 : 1 <= powerRZ (1 + r) n).
  { destruct (Z.eq_dec n 0) as [-> | Hne]; [simpl; lra |].
    left. apply powerRZ_gt_1; [lra | lia]. }
  apply Rmult_le_pos; [| lra].
  apply Rmult_le_pos; [lra | left; now apply Rinv_0_lt_compat].
Qed.

(** X6.  For a cost, an item inflation and a number of years that are not
    negative, the future cost is never below the current cost, and equals
    it when the inflation is zero or the purchase is now. *)
Theorem future_cost_at_least_current
        (current_cost years_to_buy item_inflation monthly_savings_goal : Z)
        (goal_return : R) :
  goal_return <> 0 -> (0 <= years_to_buy)%Z ->
  (0 <= current_cost)%Z -> (0 <= item_inflation)%Z ->
  exists g,
    computeGoalGap current_cost years_to_buy item_inflation
                   monthly_savings_goal goal_return = Ok g /\
    IZR current_cost <= future_cost g /\
    (item_inflation = 0%Z \/ years_to_buy = 0%Z ->
     future_cost g = IZR current_cost).
Proof.
  intros Hret Hy Hc Hi.
  eexists. split; [apply computeGoalGap_value; assumption |].
  cbn [future_cost].
  assert (Hc' : 0 <= IZR current_cost) by now apply IZR_le.
  assert (Hi' : 0 <= IZR item_inflation) by now apply IZR_le.
  assert (Hp : 1 <= powerRZ (1 + IZR item_inflation / 100) years_to_buy).
  { rewrite <- (Z2Nat.id years_to_buy) by assumption.
    rewrite <- pow_powerRZ. apply pow_R1_Rle. lra. }
  split; [nra |].
  intros [-> | ->].
  - replace (1 + 0 / 100) with 1 by lra. rewrite powerRZ_R1. ring.
  - simpl. ring.
Qed.

Lemma future_cost_at_least_current_witness :
  10 <> 0 /\ (0 <= 5)%Z /\ (0 <= 4000000)%Z /\ (0 <= 5)%Z /\
  exists g,
    computeGoalGap 4000000 5 5 50000 10 = Ok g /\
    IZR 4000000 <= future_cost g /\
    (5%Z = 0%Z \/ 5%Z = 0%Z -> future_cost g = IZR 4000000).
Proof.
  split; [lra |]. split; [lia |]. split; [lia |]. split; [lia |].
  apply (future_cost_at_least_current 4000000 5 5 50000 10); try lia. lra.
Defined.

(** X7.  At a positive expected return, saving more each month never hurts:
    the gap does not decrease, so a goal that was affordable stays
    affordable. *)
Theorem goal_gap_monotone_in_savings
        (current_cost years_to_buy item_inflation savings1 savings2 : Z)
        (goal_return : R) :
  0 < goal_return -> (0 <= years_to_buy)%Z -> (savings1 <= savings2)%Z ->
  exists g1 g2,
    computeGoalGap current_cost years_to_buy item_inflation savings1
                   goal_return = Ok g1 /\
    computeGoalGap current_cost years_to_buy item_inflation savings2
                   goal_return = Ok g2 /\
    future_cost g1 = future_cost g2 /\
    gap g1 <= gap g2 /\
    (affordable g1 = true -> affordable g2 = true).
Proof.
  intros Hret Hy Hs. pose proof (monthly_rate_pos _ Hret) as Hr.
  do 2 eexists.
  split; [apply computeGoalGap_value; [lra | assumption] |].
  split; [apply computeGoalGap_value; [lra | assumption] |].
  cbn [future_cost gap]. unfold affordable. cbn [message].
  split; [reflexivity |].
  assert (Hgap : annuity_due_formula (IZR savings1) (goal_return / 100 / 12)
                   (years_to_buy * 12)
                 <= annuity_due_formula (IZR savings2)
                      (goal_return / 100 / 12) (years_to_buy * 12)).
  { unfold annuity_due_formula. rewrite !Rmult_assoc.
    apply Rmult_le_compat_r; [| now apply IZR_le].
    apply annuity_due_factor_nonneg; [assumption | lia]. }
  split; [lra |].
  rewrite !goal_message_affordable. lra.
Qed.

Lemma goal_gap_monotone_in_savings_witness :
  0 < 10 /\ (0 <= 5)%Z /\ (50000 <= 60000)%Z /\
  exists g1 g2,
    computeGoalGap 4000000 5 5 50000 10 = Ok g1 /\
    computeGoalGap 4000000 5 5 60000 10 = Ok g2 /\
    future_cost g1 = future_cost g2 /\
    gap g1 <= gap g2 /\
    (affordable g1 = true -> affordable g2 = true).
Proof.
  split; [lra |]. split; [lia |]. split; [lia |].
  apply (goal_gap_monotone_in_savings 4000000 5 5 50000 60000 10);
    [lra | lia | lia].
Defined.

(** X8.  The two messages of the planner: it announces the purchase exactly
    when the future savings cover the future cost; otherwise it reports the
    shortfall, cost minus savings, in lakhs, which is then positive. *)
Theorem goal_message_cases
        (current_cost years_to_buy item_inflation monthly_savings_goal : Z)
        (goal_return : R) :
  goal_return <> 0 -> (0 <= years_to_buy)%Z ->
  exists g,
    computeGoalGap current_cost years_to_buy item_inflation
                   monthly_savings_goal goal_return = Ok g /\
    (future_cost g <= future_savings g -> message g = CanBuy) /\
    (future_savings g < future_cost g ->
     message g = Shortfall ((future_cost g - future_savings g) / 100000) /\
     0 < (future_cost g - future_savings g) / 100000).
Proof.
  intros Hret Hy.
  eexists. split; [apply computeGoalGap_value; assumption |].
  cbn [future_cost future_savings message]. unfold goal_message.
  split; intros H.
  - destruct (Rge_dec _ 0) as [_ | N]; [reflexivity | exfalso; apply N; lra].
  - destruct (Rge_dec _ 0) as [G | _]; [exfalso; lra |].
    split; [| lra]. f_equal. rewrite Rabs_left by lra. lra.
Qed.

Lemma goal_message_cases_witness :
  10 <> 0 /\ (0 <= 5)%Z /\
  exists g,
    computeGoalGap 4000000 5 5 50000 10 = Ok g /\
    (future_cost g <= future_savings g -> message g = CanBuy) /\
    (future_savings g < future_cost g ->
     message g = Shortfall ((future_cost g - future_savings g) / 100000) /\
     0 < (future_cost g - future_savings g) / 100000).
Proof.
  split; [lra |]. split; [lia |].
  apply (goal_message_cases 4000000 5 5 50000 10); [lra | lia].
Defined.

(** ** Tab 1: the projector as a whole *)

(** Everything the projector returns for a positive number of years. *)
Lemma projectSip_fields (monthly_inv : Z) (return_rate : R) (time_period : Z)
      (inflation_adj tax_adj : bool) :
  (0 < time_period)%Z ->
  let n := Z.to_nat (time_period * 12) in
  let r := return_rate / 100 / 12 in
  let value := sip_value (IZR monthly_inv) r n in
  let invested := (Z.of_nat n * monthly_inv)%Z in
  let tax := if tax_adj
             then Rmax 0 (value - IZR invested - 125000) * 0.125 else 0 in
  projectSip monthly_inv return_rate time_period inflation_adj tax_adj
  = Ok (mkSipResult
          (map (sip_point monthly_inv r (monthly_inflation inflation_adj))
               (seq 1 n))
          invested value (value - IZR invested) tax (value - tax)).
Proof.
  intros Hy n r value invested tax. unfold projectSip.
  assert (Hi : 1 + (if inflation_adj then 6.0 else 0.0) / 100 / 12 <> 0).
  { rewrite inflation_rate_monthly.
    pose proof (monthly_inflation_nonneg inflation_adj). lra. }
  rewrite sip_loop_run by assumption. cbn [bind].
  rewrite inflation_rate_monthly. fold n r.
  unfold sip_state_at. cbn [st_data].
  assert (Hn : exists k, n = S k)
    by (destruct n as [| k] eqn:E; [subst n; lia | now exists k]).
  destruct Hn as [k Hk].
  rewrite Hk at 1. rewrite sip_points_last. cbn [bind].
  cbn [Portfolio_Value Invested sip_point]. rewrite <- Hk.
  fold value invested. unfold tax.
  destruct tax_adj; [reflexivity |].
  now replace (value - 0) with value by ring.
Qed.

(** X9.  Years that are not positive leave the data frame empty, so that
    [df.iloc[-1]] raises [IndexError]; the projector raises in no other
    way.  This is said for a period of at most 30 years, a contribution up
    to 10^15 in magnitude and a rate between -100% and 100%, where every
    deflator [(1 + inflation_rate/100/12) ** m] stays within the float
    range. *)
Theorem projectSip_raises_iff (monthly_inv : Z) (return_rate : R)
        (time_period : Z) (inflation_adj tax_adj : bool) (e : exn) :
  (time_period <= 30)%Z ->
  (Z.abs monthly_inv <= 1000000000000000)%Z ->
  -100 <= return_rate <= 100 ->
  (projectSip monthly_inv return_rate time_period inflation_adj tax_adj
   = Err e
   <-> e = IndexError /\ (time_period <= 0)%Z) /\
  (forall m : Z,
      (1 <= m <= time_period * 12)%Z ->
      in_float_range
        (powerRZ (1 + (if inflation_adj then 6.0 else 0.0) / 100 / 12) m)).
Proof.
  intros Hmax _ _. split.
  - destruct (Z.lt_ge_cases 0 time_period) as [Hpos | Hneg].
    + rewrite projectSip_fields by assumption. split; [discriminate |].
      intros [_ H]. lia.
    + unfold projectSip.
      assert (Hi : 1 + (if inflation_adj then 6.0 else 0.0) / 100 / 12 <> 0).
      { rewrite inflation_rate_monthly.
        pose proof (monthly_inflation_nonneg inflation_adj). lra. }
      rewrite sip_loop_run by assumption. cbn [bind].
      replace (Z.to_nat (time_period * 12)) with 0%nat by lia.
      cbn. split.
      * intros E. injection E as <-. now split.
      * intros [-> _]. reflexivity.
  - intros m Hm. apply growth_power_in_range; [| lia].
    destruct inflation_adj; lra.
Qed.

Lemma projectSip_raises_iff_witness :
  (0 <= 30)%Z /\ (Z.abs 25000 <= 1000000000000000)%Z /\ -100 <= 12 <= 100 /\
  (projectSip 25000 12 0 true false = Err IndexError
   <-> IndexError = IndexError /\ (0 <= 0)%Z) /\
  (forall m : Z,
      (1 <= m <= 0 * 12)%Z ->
      in_float_range (powerRZ (1 + (if true then 6.0 else 0.0) / 100 / 12) m)).
Proof.
  split; [lia |]. split; [lia |]. split; [lra |].
  apply (projectSip_raises_iff 25000 12 0 true false IndexError);
    [lia | lia | lra].
Defined.

(** X10.  The tax of tab 1.  With the toggle off nothing is withheld.  With
    it on, for a positive contribution and duration and a rate that is not
    negative: the tax is 12.5% of the gains above 125,000; it is never
    negative and never more than 12.5% of the gains; no tax is due when the
    gains stay within 125,000; and the post-tax value lies between the
    amount invested and the pre-tax value. *)
Theorem sip_tax_bounds (monthly_inv : Z) (return_rate : R) (time_period : Z)
        (inflation_adj tax_adj : bool) :
  (0 < monthly_inv)%Z -> (0 < time_period)%Z -> 0 <= return_rate ->
  exists res,
    projectSip monthly_inv return_rate time_period inflation_adj tax_adj
    = Ok res /\
    total_gains res = final_val res - IZR (final_invested res) /\
    post_tax_value res = final_val res - tax_amount res /\
    (tax_adj = false -> tax_amount res = 0) /\
    (tax_adj = true ->
     tax_amount res = Rmax 0 (total_gains res - 125000) * 0.125) /\
    0 <= tax_amount res <= 0.125 * total_gains res /\
    (total_gains res <= 125000 -> tax_amount res = 0) /\
    IZR (final_invested res) <= post_tax_value res <= final_val res.
Proof.
  intros Hc Hy Hret.
  eexists. split; [apply projectSip_fields; assumption |].
  cbn [total_gains post_tax_value tax_amount final_val final_invested].
  set (n := Z.to_nat (time_period * 12)).
  set (v := sip_value (IZR monthly_inv) (return_rate / 100 / 12) n).
  assert (Hge : IZR (Z.of_nat n * monthly_inv) <= v).
  { rewrite mult_IZR, <- INR_IZR_INZ. apply sip_value_ge_invested; [| lra].
    apply IZR_le. lia. }
  remember (v - IZR (Z.of_nat n * monthly_inv)) as g eqn:Eg.
  assert (Hg : 0 <= g) by lra.
  split; [reflexivity |]. split; [reflexivity |].
  destruct tax_adj.
  - split; [discriminate |]. split; [reflexivity |].
    unfold Rmax. destruct (Rle_dec 0 (g - 125000)) as [H | H].
    + split; [lra |]. split; [| lra].
      intros Hle. replace g with 125000 by lra. lra.
    + split; [lra |]. split; [| lra]. intros _. lra.
  - split; [reflexivity |]. split; [discriminate |].
    split; [lra |]. split; [reflexivity | lra].
Qed.

Lemma sip_tax_bounds_witness :
  (0 < 25000)%Z /\ (0 < 15)%Z /\ 0 <= 12 /\
  exists res,
    projectSip 25000 12 15 false true = Ok res /\
    total_gains res = final_val res - IZR (final_invested res) /\
    post_tax_value res = final_val res - tax_amount res /\
    (true = false -> tax_amount res = 0) /\
    (true = true ->
     tax_amount res = Rmax 0 (total_gains res - 125000) * 0.125) /\
    0 <= tax_amount res <= 0.125 * total_gains res /\
    (total_gains res <= 125000 -> tax_amount res = 0) /\
    IZR (final_invested res) <= post_tax_value res <= final_val res.
Proof.
  split; [lia |]. split; [lia |]. split; [lra |].
  apply (sip_tax_bounds 25000 12 15 false true); [lia | lia | lra].
Defined.

Lemma real_value_after_points (monthly_inv : Z) (r i : R) (n m : nat) :
  (1 <= m <= n)%nat ->
  real_value_after (map (sip_point monthly_inv r i) (seq 1 n)) m
  = sip_value (IZR monthly_inv) r m / (1 + i) ^ m.
Proof.
  intros [Hm1 Hmn]. destruct m as [| k]; [lia |].
  unfold real_value_after. now rewrite sip_points_nth by lia.
Qed.

Lemma sip_value_pos (c r : R) (n : nat) :
  0 < c -> 0 <= r -> (1 <= n)%nat -> 0 < sip_value c r n.
Proof.
  intros Hc Hr Hn.
  pose proof (sip_value_ge_invested c r n ltac:(lra) Hr) as H.
  assert (1 <= INR n) by (change 1 with (INR 1); now apply le_INR).
  nra.
Qed.

(** X11.  The inflation toggle changes the Real Value column and nothing
    else: the months, the invested totals, the portfolio values, the final
    amounts, the gains, the tax and the post-tax value are the same with
    the toggle on and off. *)
Theorem inflation_toggle_only_real_value (monthly_inv : Z) (return_rate : R)
        (time_period : Z) (tax_adj : bool) :
  (0 < time_period)%Z ->
  exists off on,
    projectSip monthly_inv return_rate time_period false tax_adj = Ok off /\
    projectSip monthly_inv return_rate time_period true tax_adj = Ok on /\
    map Month (points off) = map Month (points on) /\
    map Year (points off) = map Year (points on) /\
    map Invested (points off) = map Invested (points on) /\
    map Portfolio_Value (points off) = map Portfolio_Value (points on) /\
    final_invested off = final_invested on /\
    final_val off = final_val on /\
    total_gains off = total_gains on /\
    tax_amount off = tax_amount on /\
    post_tax_value off = post_tax_value on.
Proof.
  intros Hy. do 2 eexists.
  split; [apply projectSip_fields; assumption |].
  split; [apply projectSip_fields; assumption |].
  cbn [points final_invested final_val total_gains tax_amount post_tax_value].
  rewrite !map_map. repeat split.
Qed.

Lemma inflation_toggle_only_real_value_witness :
  (0 < 15)%Z /\
  exists off on,
    projectSip 25000 12 15 false true = Ok off /\
    projectSip 25000 12 15 true true = Ok on /\
    map Month (points off) = map Month (points on) /\
    map Year (points off) = map Year (points on) /\
    map Invested (points off) = map Invested (points on) /\
    map Portfolio_Value (points off) = map Portfolio_Value (points on) /\
    final_invested off = final_invested on /\
    final_val off = final_val on /\
    total_gains off = total_gains on /\
    tax_amount off = tax_amount on /\
    post_tax_value off = post_tax_value on.
Proof.
  split; [lia |]. apply (inflation_toggle_only_real_value 25000 12 15 true).
  lia.
Defined.

(** X12.  The Real Value column.  With the toggle off it repeats the
    portfolio value.  With it on, for a positive contribution and a rate
    that is not negative, it is positive and strictly below the portfolio
    value in every month. *)
Theorem real_value_below_nominal (monthly_inv : Z) (return_rate : R)
        (time_period : Z) (inflation_adj tax_adj : bool) :
  (0 < monthly_inv)%Z -> (0 < time_period)%Z -> 0 <= return_rate ->
  exists res,
    projectSip monthly_inv return_rate time_period inflation_adj tax_adj
    = Ok res /\
    forall m : nat,
      (1 <= m <= Z.to_nat (time_period * 12))%nat ->
      (inflation_adj = false ->
       real_value_after (points res) m = value_after (points res) m) /\
      (inflation_adj = true ->
       0 < real_value_after (points res) m < value_after (points res) m).
Proof.
  intros Hc Hy Hret.
  eexists. split; [apply projectSip_fields; assumption |].
  cbn [points]. intros m Hm.
  rewrite real_value_after_points, value_after_points by lia.
  assert (Hv : 0 < sip_value (IZR monthly_inv) (return_rate / 100 / 12) m).
  { apply sip_value_pos; [now apply IZR_lt | lra | lia]. }
  split; intros ->; unfold monthly_inflation.
  - rewrite Rplus_0_r, pow1. field.
  - assert (Hp : 1 < (1 + 6 / 100 / 12) ^ m)
      by (apply Rlt_pow_R1; [lra | lia]).
    split.
    + apply Rdiv_lt_0_compat; lra.
    + apply (Rmult_lt_reg_r ((1 + 6 / 100 / 12) ^ m)); [lra |].
      unfold Rdiv. rewrite Rmult_assoc, Rinv_l by lra. nra.
Qed.

Lemma real_value_below_nominal_witness :
  (0 < 25000)%Z /\ (0 < 15)%Z /\ 0 <= 12 /\
  exists res,
    projectSip 25000 12 15 true false = Ok res /\
    forall m : nat,
      (1 <= m <= Z.to_nat (15 * 12))%nat ->
      (true = false ->
       real_value_after (points res) m = value_after (points res) m) /\
      (true = true ->
       0 < real_value_after (points res) m < value_after (points res) m).
Proof.
  split; [lia |]. split; [lia |]. split; [lra |].
  apply (real_value_below_nominal 25000 12 15 true false); [lia | lia | lra].
Defined.

Lemma firstn_seq_le (start a n : nat) :
  (a <= n)%nat -> firstn a (seq start n) = seq start a.
Proof.
  intros Ha. replace n with (a + (n - a))%nat by lia.
  rewrite seq_app.
  rewrite <- (length_seq a start) at 1.
  rewrite <- (Nat.add_0_r (length (seq start a))), firstn_app_2.
  cbn. apply app_nil_r.
Qed.

(** X13.  A longer horizon extends the series without rewriting it: the
    rows of a projection over [y1] years are the first [y1 * 12] rows of the
    projection over any [y2 >= y1] years with the same other inputs. *)
Theorem sip_series_prefix (monthly_inv : Z) (return_rate : R) (y1 y2 : Z)
        (inflation_adj tax_adj : bool) :
  (0 < y1)%Z -> (y1 <= y2)%Z ->
  exists short long,
    projectSip monthly_inv return_rate y1 inflation_adj tax_adj = Ok short /\
    projectSip monthly_inv return_rate y2 inflation_adj tax_adj = Ok long /\
    points short = firstn (Z.to_nat (y1 * 12)) (points long).
Proof.
  intros H1 H12. do 2 eexists.
  split; [apply projectSip_fields; assumption |].
  split; [apply projectSip_fields; lia |].
  cbn [points]. rewrite firstn_map, firstn_seq_le by lia. reflexivity.
Qed.

Lemma sip_series_prefix_witness :
  (0 < 10)%Z /\ (10 <= 15)%Z /\
  exists short long,
    projectSip 25000 12 10 false false = Ok short /\
    projectSip 25000 12 15 false false = Ok long /\
    points short = firstn (Z.to_nat (10 * 12)) (points long).
Proof.
  split; [lia |]. split; [lia |].
  apply (sip_series_prefix 25000 12 10 15 false false); lia.
Defined.

Lemma sip_value_mono_rate (c r1 r2 : R) (n : nat) :
  0 <= c -> 0 <= r1 <= r2 -> sip_value c r1 n <= sip_value c r2 n.
Proof.
  intros Hc Hr. induction n as [| n IH]; simpl; [lra |].
  pose proof (sip_value_nonneg c r1 n Hc ltac:(lra)).
  pose proof (sip_value_nonneg c r2 n Hc ltac:(lra)).
  nra.
Qed.

Lemma sip_value_linear (k c r : R) (n : nat) :
  sip_value (k * c) r n = k * sip_value c r n.
Proof.
  induction n as [| n IH]; simpl; [ring |]. rewrite IH. ring.
Qed.

(** X14.  A higher return never lowers the projection: for a contribution
    that is not negative and annual rates [0 <= rate1 <= rate2], the
    portfolio value at the higher rate is at least the value at the lower
    rate in every month, and so is the final value, while the invested
    amount is the same. *)
Theorem sip_monotone_in_rate (monthly_inv : Z) (rate1 rate2 : R)
        (time_period : Z) (inflation_adj tax_adj : bool) :
  (0 <= monthly_inv)%Z -> (0 < time_period)%Z -> 0 <= rate1 <= rate2 ->
  exists low high,
    projectSip monthly_inv rate1 time_period inflation_adj tax_adj = Ok low /\
    projectSip monthly_inv rate2 time_period inflation_adj tax_adj = Ok high /\
    final_invested low = final_invested high /\
    final_val low <= final_val high /\
    forall m : nat,
      (m <= Z.to_nat (time_period * 12))%nat ->
      value_after (points low) m <= value_after (points high) m.
Proof.
  intros Hc Hy Hr. do 2 eexists.
  split; [apply projectSip_fields; assumption |].
  split; [apply projectSip_fields; assumption |].
  cbn [points final_invested final_val].
  assert (Hc' : 0 <= IZR monthly_inv) by now apply IZR_le.
  split; [reflexivity |].
  split; [apply sip_value_mono_rate; [assumption | lra] |].
  intros m Hm. rewrite !value_after_points by assumption.
  apply sip_value_mono_rate; [assumption | lra].
Qed.

Lemma sip_monotone_in_rate_witness :
  (0 <= 25000)%Z /\ (0 < 15)%Z /\ 0 <= 8 <= 12 /\
  exists low high,
    projectSip 25000 8 15 false false = Ok low /\
    projectSip 25000 12 15 false false = Ok high /\
    final_invested low = final_invested high /\
    final_val low <= final_val high /\
    forall m : nat,
      (m <= Z.to_nat (15 * 12))%nat ->
      value_after (points low) m <= value_after (points high) m.
Proof.
  split; [lia |]. split; [lia |]. split; [lra |].
  apply (sip_monotone_in_rate 25000 8 12 15 false false); [lia | lia | lra].
Defined.

(** X15.  The projection is proportional to the contribution: with [k]
    times the monthly amount, the invested totals, the portfolio values,
    the inflation-adjusted values and the gains are all [k] times what they
    were.  (The tax is not: its threshold does not scale.) *)
Theorem sip_linear_in_contribution (k monthly_inv : Z) (return_rate : R)
        (time_period : Z) (inflation_adj tax_adj : bool) :
  (0 < time_period)%Z ->
  exists one many,
    projectSip monthly_inv return_rate time_period inflation_adj tax_adj
    = Ok one /\
    projectSip (k * monthly_inv) return_rate time_period inflation_adj tax_adj
    = Ok many /\
    final_invested many = (k * final_invested one)%Z /\
    final_val many = IZR k * final_val one /\
    total_gains many = IZR k * total_gains one /\
    forall m : nat,
      (1 <= m <= Z.to_nat (time_period * 12))%nat ->
      invested_after (points many) m
      = (k * invested_after (points one) m)%Z /\
      value_after (points many) m = IZR k * value_after (points one) m /\
      real_value_after (points many) m
      = IZR k * real_value_after (points one) m.
Proof.
  intros Hy. do 2 eexists.
  split; [apply projectSip_fields; assumption |].
  split; [apply projectSip_fields; assumption |].
  cbn [points final_invested final_val total_gains].
  rewrite !mult_IZR, !sip_value_linear.
  split; [lia |]. split; [reflexivity |]. split; [ring |].
  intros m Hm.
  rewrite !invested_after_points, !value_after_points,
    !real_value_after_points by lia.
  rewrite !mult_IZR, !sip_value_linear.
  split; [lia |]. split; [reflexivity |].
  unfold Rdiv. ring.
Qed.

Lemma sip_linear_in_contribution_witness :
  (0 < 15)%Z /\
  exists one many,
    projectSip 25000 12 15 true true = Ok one /\
    projectSip (2 * 25000) 12 15 true true = Ok many /\
    final_invested many = (2 * final_invested one)%Z /\
    final_val many = IZR 2 * final_val one /\
    total_gains many = IZR 2 * total_gains one /\
    forall m : nat,
      (1 <= m <= Z.to_nat (15 * 12))%nat ->
      invested_after (points many) m
      = (2 * invested_after (points one) m)%Z /\
      value_after (points many) m = IZR 2 * value_after (points one) m /\
      real_value_after (points many) m
      = IZR 2 * real_value_after (points one) m.
Proof.
  split; [lia |].
  apply (sip_linear_in_contribution 2 25000 12 15 true true). lia.
Defined.

(** X16.  A zero return rate is no special case for the projector: every
    month the portfolio value is the invested total, the gains are zero, no
    tax is due and the post-tax value is the amount invested. *)
Theorem sip_zero_rate (monthly_inv : Z) (time_period : Z)
        (inflation_adj tax_adj : bool) :
  (0 < time_period)%Z ->
  exists res,
    projectSip monthly_inv 0 time_period inflation_adj tax_adj = Ok res /\
    (forall m : nat,
        (m <= Z.to_nat (time_period * 12))%nat ->
        value_after (points res) m = IZR (invested_after (points res) m)) /\
    final_val res = IZR (final_invested res) /\
    total_gains res = 0 /\
    tax_amount res = 0 /\
    post_tax_value res = IZR (final_invested res).
Proof.
  intros Hy.
  eexists. split; [apply projectSip_fields; assumption |].
  cbn [points final_invested final_val total_gains tax_amount post_tax_value].
  replace (0 / 100 / 12) with 0 by lra.
  assert (Hv : forall n, sip_value (IZR monthly_inv) 0 n
                         = IZR (Z.of_nat n * monthly_inv)).
  { intros n. rewrite sip_value_zero_rate, mult_IZR. now rewrite INR_IZR_INZ. }
  rewrite !Hv.
  assert (Htax : (if tax_adj
                  then Rmax 0 (IZR (Z.of_nat (Z.to_nat (time_period * 12))
                                    * monthly_inv)
                               - IZR (Z.of_nat (Z.to_nat (time_period * 12))
                                      * monthly_inv) - 125000) * 0.125
                  else 0) = 0).
  { destruct tax_adj; [| reflexivity].
    rewrite Rmax_left by lra. ring. }
  rewrite Htax.
  split.
  { intros m Hm.
    now rewrite invested_after_points, value_after_points, Hv by assumption. }
  repeat split; ring.
Qed.

Lemma sip_zero_rate_witness :
  (0 < 15)%Z /\
  exists res,
    projectSip 25000 0 15 true true = Ok res /\
    (forall m : nat,
        (m <= Z.to_nat (15 * 12))%nat ->
        value_after (points res) m = IZR (invested_after (points res) m)) /\
    final_val res = IZR (final_invested res) /\
    total_gains res = 0 /\
    tax_amount res = 0 /\
    post_tax_value res = IZR (final_invested res).
Proof.
  split; [lia |]. apply (sip_zero_rate 25000 15 true true). lia.
Defined.

(** ** Tab 1: the metrics *)

Lemma projectSip_post_tax (monthly_inv : Z) (return_rate : R)
      (time_period : Z) (inflation_adj tax_adj : bool) :
  (0 < monthly_inv)%Z -> (0 < time_period)%Z -> 0 <= return_rate ->
  exists res,
    projectSip monthly_inv return_rate time_period inflation_adj tax_adj
    = Ok res /\
    0 < IZR (final_invested res) /\
    IZR (final_invested res) <= post_tax_value res <= final_val res /\
    (tax_adj = false -> post_tax_value res = final_val res).
Proof.
  intros Hc Hy Hret.
  eexists. split; [apply projectSip_fields; assumption |].
  cbn [post_tax_value final_val final_invested].
  set (n := Z.to_nat (time_period * 12)).
  assert (Hge : IZR (Z.of_nat n * monthly_inv)
                <= sip_value (IZR monthly_inv) (return_rate / 100 / 12) n).
  { rewrite mult_IZR, <- INR_IZR_INZ. apply sip_value_ge_invested; [| lra].
    apply IZR_le. lia. }
  split; [apply IZR_lt; unfold n; nia |].
  destruct tax_adj.
  - split; [| discriminate]. unfold Rmax.
    destruct (Rle_dec 0 _) as [H | H]; lra.
  - split; [lra |]. intros _. ring.
Qed.

(** X17.  The metrics of tab 1, for a positive contribution and duration
    and a rate that is not negative.  All of them are real numbers.  The
    corpus shown is the post-tax value, with the tax toggle on or off; the
    growth shown is that value over the amount invested, minus one, in
    percent, and is never negative.  The third metric is the tax in lakhs
    when the toggle is on, and otherwise the wealth multiplier, which is at
    least 1 and agrees with the growth shown. *)
Theorem sip_metrics_growth (monthly_inv : Z) (return_rate : R)
        (time_period : Z) (inflation_adj tax_adj : bool) :
  (0 < monthly_inv)%Z -> (0 < time_period)%Z -> 0 <= return_rate ->
  exists res shown,
    projectSip monthly_inv return_rate time_period inflation_adj tax_adj
    = Ok res /\
    sip_metrics tax_adj res = Some shown /\
    total_invested_lakhs shown = IZR (final_invested res) / 100000 /\
    final_corpus_crores shown = post_tax_value res / 10000000 /\
    growth_percent shown
    = (post_tax_value res / IZR (final_invested res) - 1) * 100 /\
    0 <= growth_percent shown /\
    (tax_adj = true -> third shown = TaxPayable (tax_amount res / 100000)) /\
    (tax_adj = false ->
     exists times,
       third shown = WealthMultiplier times /\
       1 <= times /\
       growth_percent shown = (times - 1) * 100).
Proof.
  intros Hc Hy Hret.
  destruct (projectSip_post_tax monthly_inv return_rate time_period
              inflation_adj tax_adj Hc Hy Hret)
    as (res & Hres & Hinv & Hpost & Hoff).
  exists res.
  assert (Hdisp : (if tax_adj then post_tax_value res else final_val res)
                  = post_tax_value res).
  { destruct tax_adj; [reflexivity |]. symmetry. now apply Hoff. }
  assert (Hratio : 1 <= post_tax_value res / IZR (final_invested res)).
  { apply (Rmult_le_reg_r (IZR (final_invested res))); [assumption |].
    unfold Rdiv. rewrite Rmult_assoc, Rinv_l by lra. lra. }
  assert (Hgrowth : (post_tax_value res - IZR (final_invested res))
                    / IZR (final_invested res) * 100
                    = (post_tax_value res / IZR (final_invested res) - 1) * 100).
  { field. lra. }
  unfold sip_metrics, np_truediv. rewrite Hdisp.
  destruct (Req_dec_T (IZR (final_invested res)) 0) as [E | _]; [lra |].
  destruct tax_adj.
  - eexists. split; [exact Hres |]. split; [reflexivity |].
    cbn [total_invested_lakhs final_corpus_crores growth_percent third].
    rewrite Hgrowth.
    split; [reflexivity |]. split; [reflexivity |]. split; [reflexivity |].
    split; [lra |]. split; [reflexivity | discriminate].
  - eexists. split; [exact Hres |]. split; [reflexivity |].
    cbn [total_invested_lakhs final_corpus_crores growth_percent third].
    rewrite Hgrowth.
    split; [reflexivity |]. split; [reflexivity |]. split; [reflexivity |].
    split; [lra |]. split; [discriminate |].
    intros _. eexists. split; [reflexivity |].
    rewrite <- (Hoff eq_refl). split; [exact Hratio | reflexivity].
Qed.

Lemma sip_metrics_growth_witness :
  (0 < 25000)%Z /\ (0 < 15)%Z /\ 0 <= 12 /\
  exists res shown,
    projectSip 25000 12 15 false true = Ok res /\
    sip_metrics true res = Some shown /\
    total_invested_lakhs shown = IZR (final_invested res) / 100000 /\
    final_corpus_crores shown = post_tax_value res / 10000000 /\
    growth_percent shown
    = (post_tax_value res / IZR (final_invested res) - 1) * 100 /\
    0 <= growth_percent shown /\
    (true = true -> third shown = TaxPayable (tax_amount res / 100000)) /\
    (true = false ->
     exists times,
       third shown = WealthMultiplier times /\
       1 <= times /\
       growth_percent shown = (times - 1) * 100).
Proof.
  split; [lia |]. split; [lia |]. split; [lra |].
  apply (sip_metrics_growth 25000 12 15 false true); [lia | lia | lra].
Defined.

(** ** Tab 2: the overlay *)

Lemma map_each_ok {A B : Type} (f : A -> result B) (g : A -> B)
      (xs : list A) :
  (forall x, In x xs -> f x = Ok (g x)) -> map_each f xs = Ok (map g xs).
Proof.
  induction xs as [| x xs IH]; intros H; [reflexivity |].
  cbn [map_each map]. rewrite (H x) by now left. cbn [bind].
  rewrite IH by (intros y Hy; apply H; now right). reflexivity.
Qed.

(** The overlay divides by no zero: its exponents are never negative. *)
Lemma avg_path_value (mc_inv : Z) (monthly_mean : R) (months : Z) :
  avg_path mc_inv monthly_mean months
  = Ok (map (fun m => IZR mc_inv * INR m * (1 + monthly_mean) ^ m)
            (seq 0 (Z.to_nat (months + 1)))).
Proof.
  unfold avg_path, py_range.
  replace (months + 1 - 0)%Z with (months + 1)%Z by lia.
  rewrite (map_each_ok _
             (fun m => IZR (mc_inv * m) * powerRZ (1 + monthly_mean) m)).
  - f_equal. rewrite map_map. apply map_ext. intros m.
    cbn [Z.add]. rewrite mult_IZR, <- pow_powerRZ, <- INR_IZR_INZ.
    reflexivity.
  - intros m Hm. apply in_map_iff in Hm. destruct Hm as (k & <- & _).
    rewrite py_pow_ok by (right; lia). reflexivity.
Qed.

Lemma mc_value_le_overlay (c r : R) (m : nat) :
  0 <= c -> 0 <= r -> mc_value c r m <= c * INR m * (1 + r) ^ m.
Proof.
  intros Hc Hr. induction m as [| m IH].
  - simpl. lra.
  - rewrite S_INR. cbn [mc_value pow].
    assert (Hp : 1 <= (1 + r) ^ m) by (apply pow_R1_Rle; lra).
    assert (Hm : 0 <= INR m) by apply pos_INR.
    assert (H1 : mc_value c r m + c <= c * INR m * (1 + r) ^ m + c * (1 + r) ^ m)
      by nra.
    replace (c * (INR m + 1) * ((1 + r) * (1 + r) ^ m))
      with ((c * INR m * (1 + r) ^ m + c * (1 + r) ^ m) * (1 + r)) by ring.
    apply Rmult_le_compat_r; lra.
Qed.

Lemma mc_value_lt_overlay (c r : R) (m : nat) :
  0 < c -> 0 < r -> (2 <= m)%nat -> mc_value c r m < c * INR m * (1 + r) ^ m.
Proof.
  intros Hc Hr Hm. destruct m as [| m]; [lia |].
  rewrite S_INR. cbn [mc_value pow].
  pose proof (mc_value_le_overlay c r m ltac:(lra) ltac:(lra)) as IH.
  assert (Hp : 1 < (1 + r) ^ m) by (apply Rlt_pow_R1; [lra | lia]).
  assert (H1 : mc_value c r m + c < c * INR m * (1 + r) ^ m + c * (1 + r) ^ m)
    by nra.
  replace (c * (INR m + 1) * ((1 + r) * (1 + r) ^ m))
    with ((c * INR m * (1 + r) ^ m + c * (1 + r) ^ m) * (1 + r)) by ring.
  apply Rmult_lt_compat_r; lra.
Qed.

Lemma mc_value_small (c r : R) (m : nat) :
  (m <= 1)%nat -> mc_value c r m = c * INR m * (1 + r) ^ m.
Proof.
  intros Hm. destruct m as [| [| m]]; [| | lia]; simpl; ring.
Qed.

Lemma path_values_repeat (c r : R) (n k : nat) :
  path_values c (repeat r n) (mc_value c r k)
  = map (fun j => mc_value c r (k + S j)) (seq 0 n).
Proof.
  revert k. induction n as [| n IH]; intros k; [reflexivity |].
  cbn [repeat path_values].
  change ((mc_value c r k + c) * (1 + r)) with (mc_value c r (S k)).
  rewrite IH. rewrite <- cons_seq, <- seq_shift. cbn [map]. rewrite map_map.
  f_equal.
  - now rewrite Nat.add_1_r.
  - apply map_ext. intros j. f_equal. lia.
Qed.

(** Month by month, a path with the same return every month follows
    [mc_value]. *)
Lemma build_path_constant_nth (mc_inv : Z) (r : R) (n m : nat) :
  (m <= n)%nat ->
  nth m (portfolio_path (build_path mc_inv (repeat r n))) 0
  = mc_value (IZR mc_inv) r m.
Proof.
  intros Hm. rewrite build_path_values. cbn [portfolio_path].
  destruct m as [| m]; [reflexivity |].
  cbn [nth].
  pose proof (path_values_repeat (IZR mc_inv) r n 0) as H.
  change (mc_value (IZR mc_inv) r 0) with 0 in H. rewrite H.
  rewrite nth_map_seq by lia. reflexivity.
Qed.

(** X18.  The overlay of line 160, for up to 30 years, a contribution from
    0 to 10^15 and a mean return from 0 to 100% a year.  Every power it
    takes stays within the float range, and it has [months + 1] values,
    [mc_inv * m * (1 + mean) ^ m] in month [m].  It is not the path of the
    simulation: against a run without volatility it agrees with every path
    in months 0 and 1 and is never below it afterwards; it is strictly
    above from month 2 on when the contribution and the mean are
    positive. *)
Theorem avg_path_overstates (mc_years mc_inv : Z) (mc_avg_return : R)
        (g : generator) :
  (0 <= mc_years <= 30)%Z -> (0 <= mc_inv <= 1000000000000000)%Z ->
  0 <= mc_avg_return <= 100 ->
  let months := Z.to_nat (mc_years * 12) in
  let mean := mc_avg_return / 100 / 12 in
  exists res g' overlay,
    runMonteCarlo mc_years mc_inv mc_avg_return 0 g = Ok (res, g') /\
    avg_path mc_inv mean (mc_years * 12) = Ok overlay /\
    length overlay = S months /\
    forall m : nat,
      (m <= months)%nat ->
      in_float_range ((1 + mean) ^ m) /\
      nth m overlay 0 = IZR mc_inv * INR m * (1 + mean) ^ m /\
      forall i : nat,
        (i < 50)%nat ->
        let path := nth i (mc_paths res) [] in
        nth m path 0 <= nth m overlay 0 /\
        ((m <= 1)%nat -> nth m path 0 = nth m overlay 0) /\
        ((0 < mc_inv)%Z -> 0 < mc_avg_return -> (2 <= m)%nat ->
         nth m path 0 < nth m overlay 0).
Proof.
  intros [Hy Hy30] [Hc _] [Hret Hret100] months mean.
  destruct (runMonteCarlo_zero_vol mc_years mc_inv mc_avg_return g Hy)
    as (res & g' & Hrun & Hp & _).
  fold months mean in Hp.
  exists res, g'. eexists.
  split; [exact Hrun |]. split; [apply avg_path_value |].
  replace (Z.to_nat (mc_years * 12 + 1)) with (S months) by (unfold months; lia).
  split; [now rewrite length_map, length_seq |].
  intros m Hm. rewrite nth_map_seq by lia.
  split.
  { rewrite pow_powerRZ. apply growth_power_in_range.
    - unfold mean. lra.
    - unfold months in Hm. lia. }
  split; [reflexivity |].
  intros i Hi path. unfold path. rewrite Hp, nth_repeat_lt by assumption.
  rewrite build_path_constant_nth by assumption.
  assert (Hc' : 0 <= IZR mc_inv) by now apply IZR_le.
  assert (Hmean : 0 <= mean) by (unfold mean; lra).
  split; [now apply mc_value_le_overlay |].
  split; [now apply mc_value_small |].
  intros Hpos Hretpos Hm2.
  apply mc_value_lt_overlay; [now apply IZR_lt | unfold mean; lra | assumption].
Qed.

Lemma avg_path_overstates_witness :
  (0 <= 15 <= 30)%Z /\ (0 <= 25000 <= 1000000000000000)%Z /\
  0 <= 12 <= 100 /\
  exists res g' overlay,
    runMonteCarlo 15 25000 12 0 (mkGen INR 0) = Ok (res, g') /\
    avg_path 25000 (12 / 100 / 12) (15 * 12) = Ok overlay /\
    length overlay = S (Z.to_nat (15 * 12)) /\
    forall m : nat,
      (m <= Z.to_nat (15 * 12))%nat ->
      in_float_range ((1 + 12 / 100 / 12) ^ m) /\
      nth m overlay 0 = IZR 25000 * INR m * (1 + 12 / 100 / 12) ^ m /\
      forall i : nat,
        (i < 50)%nat ->
        let path := nth i (mc_paths res) [] in
        nth m path 0 <= nth m overlay 0 /\
        ((m <= 1)%nat -> nth m path 0 = nth m overlay 0) /\
        ((0 < 25000)%Z -> 0 < 12 -> (2 <= m)%nat ->
         nth m path 0 < nth m overlay 0).
Proof.
  split; [lia |]. split; [lia |]. split; [lra |].
  apply (avg_path_overstates 15 25000 12 (mkGen INR 0)); [lia | lia | lra].
Defined.

(** ** Tab 2: what the returns do to a path *)

Lemma path_values_nonneg (c : R) (rets : list R) (v0 : R) :
  0 <= c -> 0 <= v0 -> Forall (fun r => -1 <= r) rets ->
  Forall (fun v => 0 <= v) (path_values c rets v0).
Proof.
  intros Hc. revert v0. induction rets as [| r rs IH]; intros v0 Hv H.
  - constructor.
  - inversion H as [| ? ? Hr Hrs]; subst. cbn [path_values].
    assert (Hv' : 0 <= (v0 + c) * (1 + r)) by (apply Rmult_le_pos; lra).
    constructor; [exact Hv' | now apply IH].
Qed.

Lemma Forall_nth_R (P : R -> Prop) (l : list R) (j : nat) :
  Forall P l -> (j < length l)%nat -> P (nth j l 0).
Proof.
  intros H Hj. rewrite Forall_forall in H. apply H. now apply nth_In.
Qed.

Lemma last_cons_nth {A : Type} (l : list A) (a d : A) :
  last (a :: l) d = nth (length l) (a :: l) d.
Proof.
  revert a. induction l as [| b l IH]; intros a; [reflexivity |].
  change (last (a :: b :: l) d) with (last (b :: l) d). now rewrite IH.
Qed.

(** X19.  No path value is negative as long as the contribution is not
    negative and no monthly return is below -100%.  When moreover no
    monthly return is negative, every month adds at least the contribution,
    so the terminal value is at least the amount paid in. *)
Theorem path_never_negative (mc_inv : Z) (monthly_returns : list R) :
  (0 <= mc_inv)%Z -> Forall (fun r => -1 <= r) monthly_returns ->
  let p := build_path mc_inv monthly_returns in
  (forall j : nat,
      (j <= length monthly_returns)%nat -> 0 <= nth j (portfolio_path p) 0) /\
  0 <= curr p /\
  (Forall (fun r => 0 <= r) monthly_returns ->
   (forall j : nat,
       (j < length monthly_returns)%nat ->
       nth j (portfolio_path p) 0 + IZR mc_inv
       <= nth (S j) (portfolio_path p) 0) /\
   INR (length monthly_returns) * IZR mc_inv <= curr p).
Proof.
  intros Hc Hrets p. unfold p. rewrite build_path_values.
  cbn [portfolio_path curr].
  assert (Hc' : 0 <= IZR mc_inv) by now apply IZR_le.
  pose proof (path_values_nonneg (IZR mc_inv) monthly_returns 0 Hc'
                (Rle_refl 0) Hrets) as Hnn.
  assert (Hall : forall j, (j <= length monthly_returns)%nat ->
                 0 <= nth j (0 :: path_values (IZR mc_inv) monthly_returns 0) 0).
  { intros [| j] Hj; [simpl; lra |]. cbn [nth].
    apply (Forall_nth_R _ _ _ Hnn). rewrite path_values_length. lia. }
  assert (Hlast : last (path_values (IZR mc_inv) monthly_returns 0) 0
                  = nth (length monthly_returns)
                        (0 :: path_values (IZR mc_inv) monthly_returns 0) 0).
  { rewrite <- path_values_last, last_cons_nth.
    now rewrite path_values_length. }
  split; [exact Hall |]. split; [rewrite Hlast; now apply Hall |].
  intros Hpos.
  assert (Hstep : forall j, (j < length monthly_returns)%nat ->
            nth j (0 :: path_values (IZR mc_inv) monthly_returns 0) 0
            + IZR mc_inv
            <= nth (S j) (0 :: path_values (IZR mc_inv) monthly_returns 0) 0).
  { intros j Hj. rewrite path_values_step by assumption.
    pose proof (Hall j ltac:(lia)) as Hv.
    assert (Hr : 0 <= nth j monthly_returns 0)
      by (apply (Forall_nth_R _ _ _ Hpos); assumption).
    nra. }
  split; [exact Hstep |].
  rewrite Hlast.
  assert (Hsum : forall j, (j <= length monthly_returns)%nat ->
            INR j * IZR mc_inv
            <= nth j (0 :: path_values (IZR mc_inv) monthly_returns 0) 0).
  { induction j as [| j IH]; intros Hj; [simpl; lra |].
    rewrite S_INR. specialize (IH ltac:(lia)). specialize (Hstep j ltac:(lia)).
    lra. }
  now apply Hsum.
Qed.

Lemma path_never_negative_witness :
  (0 <= 1000)%Z /\ Forall (fun r => -1 <= r) [1 / 10; 0] /\
  let p := build_path 1000 [1 / 10; 0] in
  (forall j : nat,
      (j <= length [1 / 10; 0])%nat -> 0 <= nth j (portfolio_path p) 0) /\
  0 <= curr p /\
  (Forall (fun r => 0 <= r) [1 / 10; 0] ->
   (forall j : nat,
       (j < length [1 / 10; 0])%nat ->
       nth j (portfolio_path p) 0 + IZR 1000
       <= nth (S j) (portfolio_path p) 0) /\
   INR (length [1 / 10; 0]) * IZR 1000 <= curr p).
Proof.
  assert (H : Forall (fun r => -1 <= r) [1 / 10; 0])
    by (repeat constructor; lra).
  split; [lia |]. split; [exact H |].
  apply (path_never_negative 1000 [1 / 10; 0]); [lia | exact H].
Defined.

(** ** Tab 2: runs whose outcomes coincide *)

Lemma summary_stats_repeat (paths : list (list R)) (v : R)
      (res : MonteCarloResult) :
  summary_stats paths (repeat v 50) = Ok res ->
  worst_case res = v /\ median_case res = v /\ best_case res = v.
Proof.
  intros Hres.
  destruct (summary_stats_50 paths (repeat v 50) (repeat_length v 50))
    as (res' & Hres' & _ & _ & Hlo & Hhi & _ & _ & Hord).
  rewrite Hres in Hres'. injection Hres' as <-.
  apply repeat_spec in Hlo, Hhi. repeat split; lra.
Qed.

(** X21.  Without volatility the three statistics coincide: worst, median
    and best case are all the deterministic value of the simulator's
    recurrence at the mean monthly rate. *)
Theorem zero_volatility_statistics (mc_years mc_inv : Z) (mc_avg_return : R)
        (g : generator) :
  (0 <= mc_years)%Z ->
  exists res g',
    runMonteCarlo mc_years mc_inv mc_avg_return 0 g = Ok (res, g') /\
    worst_case res = median_case res /\
    median_case res = best_case res /\
    best_case res
    = mc_value (IZR mc_inv) (mc_avg_return / 100 / 12)
               (Z.to_nat (mc_years * 12)).
Proof.
  intros Hy.
  destruct (runMonteCarlo_run mc_years mc_inv mc_avg_return 0 g Hy
              (Rle_refl 0)) as (res & Hrun & Hstats & _ & _).
  cbv zeta in Hstats.
  rewrite (map_ext (fun i => curr (sim_path mc_inv mc_avg_return 0
                                     (Z.to_nat (mc_years * 12)) g i))
                   (fun _ => mc_value (IZR mc_inv) (mc_avg_return / 100 / 12)
                                      (Z.to_nat (mc_years * 12))))
    in Hstats
    by (intros i; now rewrite sim_path_zero_vol, build_path_constant).
  rewrite map_const, length_seq in Hstats.
  apply summary_stats_repeat in Hstats. destruct Hstats as (Hw & Hm & Hb).
  exists res. eexists. split; [exact Hrun |]. rewrite Hw, Hm, Hb.
  repeat split.
Qed.

Lemma zero_volatility_statistics_witness :
  (0 <= 15)%Z /\
  exists res g',
    runMonteCarlo 15 25000 12 0 (mkGen INR 0) = Ok (res, g') /\
    worst_case res = median_case res /\
    median_case res = best_case res /\
    best_case res
    = mc_value (IZR 25000) (12 / 100 / 12) (Z.to_nat (15 * 12)).
Proof.
  split; [lia |].
  apply (zero_volatility_statistics 15 25000 12 (mkGen INR 0)). lia.
Defined.

(** X22.  Zero years: every simulation draws nothing, every path is the
    single value 0, the three statistics are 0 and the generator is left
    where it was. *)
Theorem zero_years_run (mc_inv : Z) (mc_avg_return mc_volatility : R)
        (g : generator) :
  0 <= mc_volatility ->
  exists res,
    runMonteCarlo 0 mc_inv mc_avg_return mc_volatility g = Ok (res, g) /\
    mc_paths res = repeat [0] 50 /\
    mc_final_values res = repeat 0 50 /\
    worst_case res = 0 /\ median_case res = 0 /\ best_case res = 0.
Proof.
  intros Hv.
  destruct (runMonteCarlo_run 0 mc_inv mc_avg_return mc_volatility g
              (Z.le_refl 0) Hv) as (res & Hrun & Hstats & Hp & Hf).
  change (Z.to_nat (0 * 12)) with 0%nat in *. cbv zeta in Hstats, Hp, Hf.
  assert (Hadv : advance (50 * 0) g = g).
  { unfold advance. cbn [Nat.mul]. rewrite Nat.add_0_r. now destruct g. }
  rewrite Hadv in Hrun.
  exists res. split; [exact Hrun |].
  change (map (fun i => portfolio_path
                          (sim_path mc_inv mc_avg_return mc_volatility 0 g i))
              (seq 0 50))
    with (repeat [0] 50) in *.
  change (map (fun i => curr (sim_path mc_inv mc_avg_return mc_volatility
                                0 g i)) (seq 0 50))
    with (repeat 0 50) in *.
  apply summary_stats_repeat in Hstats.
  split; [exact Hp |]. split; [exact Hf | exact Hstats].
Qed.

Lemma zero_years_run_witness :
  0 <= 15 /\
  exists res,
    runMonteCarlo 0 25000 12 15 (mkGen INR 0) = Ok (res, mkGen INR 0) /\
    mc_paths res = repeat [0] 50 /\
    mc_final_values res = repeat 0 50 /\
    worst_case res = 0 /\ median_case res = 0 /\ best_case res = 0.
Proof.
  split; [lra |]. apply (zero_years_run 25000 12 15 (mkGen INR 0)). lra.
Defined.

(** X23.  A run reads the [50 * months] deviates that follow the
    generator's position and no others: two generators at the same position
    whose streams agree on those deviates, however they differ elsewhere,
    give the same paths, the same terminal values and the same statistics,
    and both are left [50 * months] positions further on, with their
    streams as they were.  So the deviates a run read are out of reach of
    the run that follows it. *)
Theorem runs_read_their_own_deviates (mc_years mc_inv : Z)
        (mc_avg_return mc_volatility : R) (g1 g2 : generator) :
  (0 <= mc_years)%Z -> 0 <= mc_volatility ->
  let months := Z.to_nat (mc_years * 12) in
  drawn g1 = drawn g2 ->
  (forall t : nat,
      (t < 50 * months)%nat ->
      deviates g1 (drawn g1 + t) = deviates g2 (drawn g2 + t)) ->
  exists res g1' g2',
    runMonteCarlo mc_years mc_inv mc_avg_return mc_volatility g1
    = Ok (res, g1') /\
    runMonteCarlo mc_years mc_inv mc_avg_return mc_volatility g2
    = Ok (res, g2') /\
    drawn g1' = (drawn g1 + 50 * months)%nat /\
    drawn g2' = (drawn g2 + 50 * months)%nat /\
    deviates g1' = deviates g1 /\
    deviates g2' = deviates g2.
Proof.
  intros Hy Hv months Hpos Hsame.
  destruct (runMonteCarlo_run mc_years mc_inv mc_avg_return mc_volatility g1
              Hy Hv) as (res1 & Hrun1 & Hstats1 & _).
  destruct (runMonteCarlo_run mc_years mc_inv mc_avg_return mc_volatility g2
              Hy Hv) as (res2 & Hrun2 & Hstats2 & _).
  cbv zeta in Hstats1, Hstats2. fold months in Hrun1, Hrun2, Hstats1, Hstats2.
  assert (Hpath : forall i, In i (seq 0 50) ->
            sim_path mc_inv mc_avg_return mc_volatility months g1 i
            = sim_path mc_inv mc_avg_return mc_volatility months g2 i).
  { intros i Hi. apply in_seq in Hi. unfold sim_path, sim_returns.
    f_equal. apply map_ext_in. intros k Hk. apply in_seq in Hk.
    rewrite <- !Nat.add_assoc. rewrite Hsame by nia. reflexivity. }
  rewrite (map_ext_in _ (fun i => portfolio_path
             (sim_path mc_inv mc_avg_return mc_volatility months g2 i)))
    in Hstats1 by (intros i Hi; now rewrite Hpath).
  rewrite (map_ext_in (fun i => curr
             (sim_path mc_inv mc_avg_return mc_volatility months g1 i))
             (fun i => curr
             (sim_path mc_inv mc_avg_return mc_volatility months g2 i)))
    in Hstats1 by (intros i Hi; now rewrite Hpath).
  rewrite Hstats2 in Hstats1. injection Hstats1 as <-.
  exists res2. do 2 eexists.
  split; [exact Hrun1 |]. split; [exact Hrun2 |].
  repeat split.
Qed.

Lemma runs_read_their_own_deviates_witness :
  (0 <= 1)%Z /\ 0 <= 15 /\
  drawn (mkGen INR 0) = drawn (mkGen (fun k => INR (Nat.min k 600)) 0) /\
  (forall t : nat,
      (t < 50 * Z.to_nat (1 * 12))%nat ->
      deviates (mkGen INR 0) (drawn (mkGen INR 0) + t)
      = deviates (mkGen (fun k => INR (Nat.min k 600)) 0)
          (drawn (mkGen (fun k => INR (Nat.min k 600)) 0) + t)) /\
  exists res g1' g2',
    runMonteCarlo 1 25000 12 15 (mkGen INR 0) = Ok (res, g1') /\
    runMonteCarlo 1 25000 12 15 (mkGen (fun k => INR (Nat.min k 600)) 0)
    = Ok (res, g2') /\
    drawn g1' = (drawn (mkGen INR 0) + 50 * Z.to_nat (1 * 12))%nat /\
    drawn g2'
    = (drawn (mkGen (fun k => INR (Nat.min k 600)) 0)
       + 50 * Z.to_nat (1 * 12))%nat /\
    deviates g1' = deviates (mkGen INR 0) /\
    deviates g2' = deviates (mkGen (fun k => INR (Nat.min k 600)) 0).
Proof.
  assert (H : forall t : nat,
             (t < 50 * Z.to_nat (1 * 12))%nat ->
             deviates (mkGen INR 0) (drawn (mkGen INR 0) + t)
             = deviates (mkGen (fun k => INR (Nat.min k 600)) 0)
                 (drawn (mkGen (fun k => INR (Nat.min k 600)) 0) + t)).
  { intros t Ht. cbn [deviates drawn Nat.add].
    change (Z.to_nat (1 * 12)) with 12%nat in Ht.
    f_equal. lia. }
  split; [lia |]. split; [lra |]. split; [reflexivity |]. split; [exact H |].
  apply (runs_read_their_own_deviates 1 25000 12 15 (mkGen INR 0)
           (mkGen (fun k => INR (Nat.min k 600)) 0));
    [lia | lra | reflexivity | exact H].
Defined.

(** ** Tab 2: proportionality to the contribution *)

Lemma path_values_scale (k c : R) (rets : list R) (v0 : R) :
  path_values (k * c) rets (k * v0) = map (Rmult k) (path_values c rets v0).
Proof.
  revert v0. induction rets as [| r rs IH]; intros v0; [reflexivity |].
  cbn [path_values map].
  replace ((k * v0 + k * c) * (1 + r)) with (k * ((v0 + c) * (1 + r))) by ring.
  now rewrite IH.
Qed.

Lemma last_map_scale (k : R) (l : list R) (d : R) :
  last (map (Rmult k) l) (k * d) = k * last l d.
Proof.
  induction l as [| a l IH]; [reflexivity |].
  destruct l as [| b l]; [reflexivity |]. exact IH.
Qed.

Lemma nth_map_scale (k : R) (l : list R) (i : nat) :
  nth i (map (Rmult k) l) 0 = k * nth i l 0.
Proof.
  revert i. induction l as [| a l IH]; intros [| i]; cbn; try ring.
  apply IH.
Qed.

Lemma build_path_scale (k mc_inv : Z) (rets : list R) :
  build_path (k * mc_inv) rets
  = mkPath (IZR k * curr (build_path mc_inv rets))
           (map (Rmult (IZR k)) (portfolio_path (build_path mc_inv rets))).
Proof.
  rewrite !build_path_values. cbn [curr portfolio_path map].
  rewrite mult_IZR.
  replace 0 with (IZR k * 0) at 1 2 3 4 by ring.
  rewrite path_values_scale, last_map_scale.
  now rewrite !Rmult_0_r.
Qed.

Lemma fold_min_scale (k : R) (t : list R) (x : R) :
  0 < k ->
  fold_left (fun m y => if Rlt_dec y m then y else m) (map (Rmult k) t) (k * x)
  = k * fold_left (fun m y => if Rlt_dec y m then y else m) t x.
Proof.
  intros Hk. revert x. induction t as [| y t IH]; intros x; [reflexivity |].
  cbn [map fold_left].
  destruct (Rlt_dec (k * y) (k * x)) as [H | H];
    destruct (Rlt_dec y x) as [H' | H']; try apply IH; exfalso; nra.
Qed.

Lemma fold_max_scale (k : R) (t : list R) (x : R) :
  0 < k ->
  fold_left (fun m y => if Rlt_dec m y then y else m) (map (Rmult k) t) (k * x)
  = k * fold_left (fun m y => if Rlt_dec m y then y else m) t x.
Proof.
  intros Hk. revert x. induction t as [| y t IH]; intros x; [reflexivity |].
  cbn [map fold_left].
  destruct (Rlt_dec (k * x) (k * y)) as [H | H];
    destruct (Rlt_dec x y) as [H' | H']; try apply IH; exfalso; nra.
Qed.

Lemma insert_sorted_scale (k x : R) (s : list R) :
  0 < k ->
  insert_sorted (k * x) (map (Rmult k) s)
  = map (Rmult k) (insert_sorted x s).
Proof.
  intros Hk. induction s as [| y s IH]; [reflexivity |].
  cbn [map insert_sorted].
  destruct (Rle_dec (k * x) (k * y)) as [H | H];
    destruct (Rle_dec x y) as [H' | H']; cbn [map];
    try reflexivity; try (now rewrite IH); exfalso; nra.
Qed.

Lemma np_sort_scale (k : R) (xs : list R) :
  0 < k -> np_sort (map (Rmult k) xs) = map (Rmult k) (np_sort xs).
Proof.
  intros Hk. induction xs as [| x xs IH]; [reflexivity |].
  cbn [map np_sort fold_right]. fold (np_sort (map (Rmult k) xs)).
  fold (np_sort xs). rewrite IH. now apply insert_sorted_scale.
Qed.

Lemma summary_stats_scale (k : R) (paths paths' : list (list R))
      (finals : list R) (res : MonteCarloResult) :
  0 < k -> length finals = 50%nat ->
  summary_stats paths finals = Ok res ->
  summary_stats paths' (map (Rmult k) finals)
  = Ok (mkMonteCarlo paths' (map (Rmult k) finals) (k * worst_case res)
          (k * median_case res) (k * best_case res)).
Proof.
  intros Hk Hlen Hres. unfold summary_stats in *.
  rewrite np_median_50 in Hres by assumption.
  rewrite np_median_50 by (now rewrite length_map).
  destruct finals as [| x t]; [discriminate |].
  cbn [py_min py_max bind map] in *.
  injection Hres as <-. cbn [worst_case median_case best_case].
  rewrite fold_min_scale, fold_max_scale by assumption.
  change (k * x :: map (Rmult k) t) with (map (Rmult k) (x :: t)).
  rewrite np_sort_scale, !nth_map_scale by assumption.
  f_equal. f_equal.
  change (insert_sorted x (np_sort t)) with (np_sort (x :: t)). lra.
Qed.

(** X24.  The simulation is proportional to the contribution: on the same
    deviates, [k] times the monthly amount ([k > 0]) gives [k] times every
    value of every path, [k] times every terminal value, and [k] times the
    worst, median and best case. *)
Theorem monte_carlo_linear_in_contribution (k mc_years mc_inv : Z)
        (mc_avg_return mc_volatility : R) (g : generator) :
  (0 < k)%Z -> (0 <= mc_years)%Z -> 0 <= mc_volatility ->
  exists one many g',
    runMonteCarlo mc_years mc_inv mc_avg_return mc_volatility g
    = Ok (one, g') /\
    runMonteCarlo mc_years (k * mc_inv) mc_avg_return mc_volatility g
    = Ok (many, g') /\
    mc_paths many = map (map (Rmult (IZR k))) (mc_paths one) /\
    mc_final_values many = map (Rmult (IZR k)) (mc_final_values one) /\
    worst_case many = IZR k * worst_case one /\
    median_case many = IZR k * median_case one /\
    best_case many = IZR k * best_case one.
Proof.
  intros Hk Hy Hv.
  destruct (runMonteCarlo_run mc_years mc_inv mc_avg_return mc_volatility g
              Hy Hv) as (one & Hrun1 & Hstats1 & Hp1 & Hf1).
  destruct (runMonteCarlo_run mc_years (k * mc_inv) mc_avg_return
              mc_volatility g Hy Hv) as (many & Hrunk & Hstatsk & Hpk & Hfk).
  cbv zeta in *.
  set (n := Z.to_nat (mc_years * 12)) in *.
  assert (Hps : map (fun i => portfolio_path
                      (sim_path (k * mc_inv) mc_avg_return mc_volatility n g i))
                    (seq 0 50)
                = map (map (Rmult (IZR k))) (mc_paths one)).
  { rewrite Hp1, map_map. apply map_ext. intros i.
    unfold sim_path. now rewrite build_path_scale. }
  assert (Hfs : map (fun i => curr
                      (sim_path (k * mc_inv) mc_avg_return mc_volatility n g i))
                    (seq 0 50)
                = map (Rmult (IZR k)) (mc_final_values one)).
  { rewrite Hf1, map_map. apply map_ext. intros i.
    unfold sim_path. now rewrite build_path_scale. }
  rewrite Hps in Hpk. rewrite Hfs in Hfk. rewrite Hps, Hfs in Hstatsk.
  rewrite <- Hf1 in Hstats1.
  assert (Hlen : length (mc_final_values one) = 50%nat)
    by (rewrite Hf1; now rewrite length_map, length_seq).
  rewrite (summary_stats_scale (IZR k) _ _ _ one (IZR_lt 0 k Hk) Hlen Hstats1)
    in Hstatsk.
  injection Hstatsk as <-.
  exists one. do 2 eexists.
  split; [exact Hrun1 |]. split; [exact Hrunk |].
  repeat split.
Qed.

Lemma monte_carlo_linear_in_contribution_witness :
  (0 < 2)%Z /\ (0 <= 15)%Z /\ 0 <= 15 /\
  exists one many g',
    runMonteCarlo 15 25000 12 15 (mkGen INR 0) = Ok (one, g') /\
    runMonteCarlo 15 (2 * 25000) 12 15 (mkGen INR 0) = Ok (many, g') /\
    mc_paths many = map (map (Rmult (IZR 2))) (mc_paths one) /\
    mc_final_values many = map (Rmult (IZR 2)) (mc_final_values one) /\
    worst_case many = IZR 2 * worst_case one /\
    median_case many = IZR 2 * median_case one /\
    best_case many = IZR 2 * best_case one.
Proof.
  split; [lia |]. split; [lia |]. split; [lra |].
  apply (monte_carlo_linear_in_contribution 2 15 25000 12 15 (mkGen INR 0));
    [lia | lia | lra].
Defined.

(** ** The statistics do not depend on the order of the simulations *)

Lemma sorted_head_least (a : R) (l : list R) :
  Sorted Rle (a :: l) -> forall x, In x (a :: l) -> a <= x.
Proof.
  intros Hs. apply Sorted_StronglySorted in Hs.
  - inversion Hs as [| ? ? _ Hall]; subst.
    intros x [<- | Hx]; [lra |].
    rewrite Forall_forall in Hall. now apply Hall.
  - intros x y z Hxy Hyz. lra.
Qed.

Lemma sorted_perm_eq (l1 l2 : list R) :
  Sorted Rle l1 -> Sorted Rle l2 -> Permutation l1 l2 -> l1 = l2.
Proof.
  revert l2. induction l1 as [| a l1 IH]; intros l2 H1 H2 Hp.
  - apply Permutation_nil in Hp. now subst.
  - destruct l2 as [| b l2].
    { symmetry in Hp. apply Permutation_nil in Hp. discriminate. }
    assert (Hab : a <= b).
    { apply (sorted_head_least a l1 H1).
      apply (Permutation_in _ (Permutation_sym Hp)). now left. }
    assert (Hba : b <= a).
    { apply (sorted_head_least b l2 H2).
      apply (Permutation_in _ Hp). now left. }
    assert (E : a = b) by lra. subst b. f_equal.
    apply IH.
    + now inversion H1.
    + now inversion H2.
    + now apply Permutation_cons_inv in Hp.
Qed.

Lemma np_sort_perm_eq (l1 l2 : list R) :
  Permutation l1 l2 -> np_sort l1 = np_sort l2.
Proof.
  intros Hp. apply sorted_perm_eq; try apply np_sort_sorted.
  rewrite <- (np_sort_perm l1), <- (np_sort_perm l2). exact Hp.
Qed.

(** X25.  The three statistics depend on the terminal values, not on the
    order in which the simulations produced them: two lists with the same
    values in any order have the same worst, median and best case. *)
Theorem summary_stats_order_independent (paths1 paths2 : list (list R))
        (finals1 finals2 : list R) :
  Permutation finals1 finals2 -> finals1 <> [] ->
  exists res1 res2,
    summary_stats paths1 finals1 = Ok res1 /\
    summary_stats paths2 finals2 = Ok res2 /\
    worst_case res1 = worst_case res2 /\
    median_case res1 = median_case res2 /\
    best_case res1 = best_case res2.
Proof.
  intros Hp Hne1.
  assert (Hne2 : finals2 <> []).
  { intros ->. apply Permutation_sym, Permutation_nil in Hp. contradiction. }
  destruct (py_min_spec finals1 Hne1) as (lo1 & Hlo1 & Hin1 & Hle1).
  destruct (py_min_spec finals2 Hne2) as (lo2 & Hlo2 & Hin2 & Hle2).
  destruct (py_max_spec finals1 Hne1) as (hi1 & Hhi1 & Hhin1 & Hge1).
  destruct (py_max_spec finals2 Hne2) as (hi2 & Hhi2 & Hhin2 & Hge2).
  assert (Hmed : np_median finals2 = np_median finals1).
  { unfold np_median. now rewrite (np_sort_perm_eq finals1 finals2 Hp). }
  assert (Hok : exists md, np_median finals1 = Ok md).
  { unfold np_median. rewrite np_sort_length.
    destruct finals1 as [| x t]; [contradiction |]. cbn [length].
    destruct (Nat.even (S (length t))); eexists; reflexivity. }
  destruct Hok as [md Hmd].
  unfold summary_stats.
  rewrite Hlo1, Hlo2, Hhi1, Hhi2, Hmed, Hmd. cbn [bind].
  do 2 eexists. split; [reflexivity |]. split; [reflexivity |].
  cbn [worst_case median_case best_case].
  pose proof (Hle1 lo2 (Permutation_in _ (Permutation_sym Hp) Hin2)).
  pose proof (Hle2 lo1 (Permutation_in _ Hp Hin1)).
  pose proof (Hge1 hi2 (Permutation_in _ (Permutation_sym Hp) Hhin2)).
  pose proof (Hge2 hi1 (Permutation_in _ Hp Hhin1)).
  repeat split; lra.
Qed.

Lemma summary_stats_order_independent_witness :
  Permutation [1; 2] [2; 1] /\ [1; 2] <> [] /\
  exists res1 res2,
    summary_stats [] [1; 2] = Ok res1 /\
    summary_stats [] [2; 1] = Ok res2 /\
    worst_case res1 = worst_case res2 /\
    median_case res1 = median_case res2 /\
    best_case res1 = best_case res2.
Proof.
  assert (H : Permutation [1; 2] [2; 1]) by apply perm_swap.
  split; [exact H |]. split; [discriminate |].
  apply (summary_stats_order_independent [] [] [1; 2] [2; 1]);
    [exact H | discriminate].
Defined.

(** ** More worked examples *)

Example overlay_two_months :
  avg_path 1000 (1 / 10) 2 = Ok [0; 1100; 2420].
Proof.
  rewrite avg_path_value. change (Z.to_nat (2 + 1)) with 3%nat.
  cbn [seq map INR pow]. repeat (f_equal; try lra).
Qed.

Example delay_cost_two_years_one_late :
  exists d, computeDelayCost 1000 120 2 1 = Ok d /\
            corpus_b d < corpus_a d /\ loss d = corpus_a d - corpus_b d.
Proof.
  eexists. split; [apply computeDelayCost_value; lra |].
  cbn [corpus_a corpus_b loss]. split; [| reflexivity].
  apply annuity_due_strict_mono; [lra | lra | lia].
Qed.
